(** * wot++ evaluator: a shallow embedding of [backend/eval/eval.cpp]

    The evaluator walks an arena of AST nodes, reduces every node to a
    string and mutates the environment on the way.  The embedding keeps the
    shape of the C++ code: one definition per intrinsic, one [visit] case per
    lambda of [wpp::visit], explicit state for everything the code mutates
    (arena, function table, current directory, diagnostic stream, the
    argument scopes living on the C++ stack), and a result type that
    separates a returned string from a thrown [wpp::Exception]. *)

From Stdlib Require Import ZArith Lia Ascii.
From Stdlib Require String.
From stdpp Require Import gmap strings list pretty.

(** ** Strings as the standard library of C++ handles them *)

Module Str.

(** [std::to_string] on an unsigned size. *)
Definition to_string (n : nat) : string := pretty (N.of_nat n).

(** [std::string::find(pattern)], searched from the start: the smallest
    position at which [pattern] occurs, [None] standing for [npos]. *)
Fixpoint find_from (position : nat) (s pattern : string) : option nat :=
  if String.prefix pattern s then Some position
  else match s with
       | EmptyString => None
       | String.String _ rest => find_from (S position) rest pattern
       end.

Definition find (s pattern : string) : option nat := find_from 0 s pattern.

(** [std::string::back()]: the last byte; there is none in an empty
    string, where the C++ call is undefined. *)
Fixpoint back (s : string) : option ascii :=
  match s with
  | EmptyString => None
  | String.String c EmptyString => Some c
  | String.String _ rest => back rest
  end.

(** [str.erase(str.end() - 1, str.end())]. *)
Fixpoint erase_last (s : string) : string :=
  match s with
  | EmptyString => EmptyString
  | String.String _ EmptyString => EmptyString
  | String.String c rest => String.String c (erase_last rest)
  end.

(** [std::isspace] in the C locale. *)
Definition is_space (c : ascii) : bool :=
  let n := nat_of_ascii c in
  (n =? 32) || ((9 <=? n) && (n <=? 13)).

Definition digit_of (c : ascii) : option N :=
  let n := N_of_ascii c in
  if ((48 <=? n) && (n <=? 57))%N then Some (n - 48)%N else None.

Fixpoint skip_space (s : string) : string :=
  match s with
  | String.String c rest => if is_space c then skip_space rest else s
  | EmptyString => s
  end.

(** The digit loop of [strtol]: consume decimal digits, stop at the first
    other byte. *)
Fixpoint digits (s : string) (acc : N) : N :=
  match s with
  | String.String c rest =>
      match digit_of c with
      | Some d => digits rest (10 * acc + d)
      | None => acc
      end
  | EmptyString => acc
  end.

Definition INT_MAX : Z := 2147483647.
Definition INT_MIN : Z := -2147483648.

(** Conversion of a value to a 32-bit [int]: two's complement wrap-around. *)
Definition wrap_int (z : Z) : Z := (z + 2 ^ 31) mod 2 ^ 32 - 2 ^ 31.

(** [std::stoi]: leading white space, an optional sign, at least one
    digit; [None] stands for both [std::invalid_argument] (no digit) and
    [std::out_of_range] (the value does not fit an [int]). *)
Definition stoi (s : string) : option Z :=
  let s1 := skip_space s in
  let '(negative, s2) :=
    match s1 with
    | String.String "-"%char rest => (true, rest)
    | String.String "+"%char rest => (false, rest)
    | _ => (false, s1)
    end in
  match s2 with
  | String.String c _ =>
      match digit_of c with
      | Some _ =>
          let v := Z.of_N (digits s2 0) in
          let v := if negative then (- v)%Z else v in
          if ((INT_MIN <=? v) && (v <=? INT_MAX))%Z then Some v else None
      | None => None
      end
  | EmptyString => None
  end.

(** The [switch] of [intrinsic_escape] on one byte. *)
Definition escape_char (c : ascii) : string :=
  match nat_of_ascii c with
  | 34 => "\" +:+ String.String c EmptyString
  | 39 => "\'"
  | 10 => "\n"
  | 9 => "\t"
  | 13 => "\r"
  | _ => String.String c EmptyString
  end.

Fixpoint escape (input : string) : string :=
  match input with
  | EmptyString => EmptyString
  | String.String c rest => escape_char c +:+ escape rest
  end.

End Str.

(** ** The AST arena ([frontend/ast.hpp], [frontend/parser/ast_nodes.hpp]) *)

(** A handle into the arena. *)
Definition node_t := nat.

(** Modelled from the spec: the [wpp::Position] structure is declared outside
    the evaluator; every node carries one for diagnostics and the evaluator
    only copies it into exceptions and warnings. *)
Record Position := { pos_line : nat; pos_column : nat }.

(** The intrinsic kinds the evaluator dispatches on; [TOKEN_NONE] stands for
    every other token of the lexer, for which the arity table holds zero. *)
Inductive token_type_t :=
| TOKEN_NONE
| TOKEN_SLICE | TOKEN_FIND | TOKEN_ASSERT | TOKEN_PIPE
| TOKEN_ERROR | TOKEN_FILE | TOKEN_ESCAPE | TOKEN_EVAL
| TOKEN_RUN | TOKEN_SOURCE | TOKEN_LENGTH | TOKEN_LOG.

Module wpp.

(** The node variant; the fields are in the order of the structured
    bindings of the evaluator. *)
Inductive Node :=
| Intrinsic (type : token_type_t) (name : string) (exprs : list node_t) (pos : Position)
| FnInvoke (identifier : string) (arguments : list node_t) (pos : Position)
| Fn (identifier : string) (parameters : list string) (body : node_t) (pos : Position)
| Codeify (expr : node_t) (pos : Position)
| Var (identifier : string) (body : node_t) (pos : Position)
| Drop (func : node_t) (pos : Position)
| String (value : string) (pos : Position)
| Concat (lhs rhs : node_t) (pos : Position)
| Block (statements : list node_t) (expr : node_t) (pos : Position)
| Map (expr : node_t) (cases : list (node_t * node_t)) (default_case : node_t) (pos : Position)
| Pre (exprs : list node_t) (statements : list node_t) (pos : Position)
| Document (statements : list node_t).

End wpp.

Abbreviation Node := wpp.Node.
Abbreviation AST := (list wpp.Node).

(** [wpp::Exception]: a position and a message. *)
Record Exception := { exc_pos : Position; what : string }.

(** Modelled from the spec: [wpp::cat] of [misc/util/util.hpp] is declared
    outside the evaluator; it concatenates the text of its arguments, and
    the evaluator uses it to mangle an identifier with an arity (the
    function table is keyed by identifier + arity, the arity a suffix of
    the key). *)
Definition cat (name : string) (n : nat) : string := name +:+ Str.to_string n.

(** Modelled from the spec: the warning flags of [misc/warnings.hpp] are
    declared outside the evaluator; they are four distinct bits of a
    bitset. *)
Definition warning_t := N.
Definition WARN_FUNC_REDEFINED : warning_t := 1%N.
Definition WARN_PARAM_SHADOW_FUNC : warning_t := 2%N.
Definition WARN_PARAM_SHADOW_PARAM : warning_t := 4%N.
Definition WARN_VARFUNC_REDEFINED : warning_t := 8%N.

Definition WARN_ALL : warning_t :=
  N.lor (N.lor WARN_FUNC_REDEFINED WARN_PARAM_SHADOW_FUNC)
        (N.lor WARN_PARAM_SHADOW_PARAM WARN_VARFUNC_REDEFINED).

(** What reaches the diagnostic stream: the text of [log] and the warnings. *)
Inductive Diag :=
| Logged (text : string)
| Warned (pos : Position) (msg : string).

(** ** State

    [base], [functions], [tree] and [warnings] are the four members of
    [wpp::Environment].  [cwd] is the current directory of the process,
    [cerr] the diagnostic stream.  [scopes] holds the [Arguments] objects
    that live in the frames of the C++ call stack: an [Arguments*] is an
    index into it ([None] for the null pointer), so that a write through a
    pointer is a write to the object every holder of that pointer sees. *)
Record State := {
  base : string;
  functions : gmap string (list node_t);
  tree : AST;
  warnings : warning_t;
  cwd : string;
  cerr : list Diag;
  scopes : list (gmap string string);
}.

Definition set_functions (f : gmap string (list node_t)) (s : State) : State :=
  {| base := base s; functions := f; tree := tree s; warnings := warnings s;
     cwd := cwd s; cerr := cerr s; scopes := scopes s |}.

Definition set_tree (t : AST) (s : State) : State :=
  {| base := base s; functions := functions s; tree := t; warnings := warnings s;
     cwd := cwd s; cerr := cerr s; scopes := scopes s |}.

Definition set_cwd (d : string) (s : State) : State :=
  {| base := base s; functions := functions s; tree := tree s; warnings := warnings s;
     cwd := d; cerr := cerr s; scopes := scopes s |}.

Definition set_cerr (c : list Diag) (s : State) : State :=
  {| base := base s; functions := functions s; tree := tree s; warnings := warnings s;
     cwd := cwd s; cerr := c; scopes := scopes s |}.

Definition set_scopes (a : list (gmap string string)) (s : State) : State :=
  {| base := base s; functions := functions s; tree := tree s; warnings := warnings s;
     cwd := cwd s; cerr := cerr s; scopes := a |}.

(** ** Results

    A call of the evaluator returns a string ([Ok]) or throws a
    [wpp::Exception] ([Throw]).  [Fault] marks the executions C++ gives no
    meaning to, or ends with a foreign exception nobody catches; [OutOfFuel]
    is the model running out of recursion depth. *)
Inductive fault :=
| BadNode        (* arena access out of range, or [get<T>] on another variant *)
| BadParam       (* [params[i]] past the end of the parameter list *)
| BadScope       (* an [Arguments*] that points to no live object *)
| BackOfEmpty    (* [back()] of an empty string *)
| IntOverflow    (* an [int] sum or difference outside the range of [int] *)
| SubstrRange.   (* [std::out_of_range] from [substr] *)

Inductive Res (A : Type) :=
| Ok (a : A)
| Throw (e : Exception)
| Fault (f : fault)
| OutOfFuel.

Arguments Ok {A} a.
Arguments Throw {A} e.
Arguments Fault {A} f.
Arguments OutOfFuel {A}.

Definition M (A : Type) : Type := State -> State * Res A.

Definition ret {A} (a : A) : M A := fun s => (s, Ok a).

Definition bind {A B} (m : M A) (k : A -> M B) : M B :=
  fun s =>
    match m s with
    | (s', Ok a) => k a s'
    | (s', Throw e) => (s', Throw e)
    | (s', Fault f) => (s', Fault f)
    | (s', OutOfFuel) => (s', OutOfFuel)
    end.

Notation "x <- m ;; k" := (bind m (fun x => k))
  (at level 100, m at next level, right associativity).
Notation "m ;;; k" := (bind m (fun _ => k))
  (at level 100, right associativity).

(** [throw wpp::Exception{pos, msg}]. *)
Definition throw {A} (pos : Position) (msg : string) : M A :=
  fun s => (s, Throw {| exc_pos := pos; what := msg |}).

Definition fail {A} (f : fault) : M A := fun s => (s, Fault f).

(** [try { m } catch (const wpp::Exception& e) { h e }]. *)
Definition try_catch {A} (m : M A) (h : Exception -> M A) : M A :=
  fun s =>
    match m s with
    | (s', Throw e) => h e s'
    | r => r
    end.

Definition get {A} (f : State -> A) : M A := fun s => (s, Ok (f s)).
Definition modify (f : State -> State) : M unit := fun s => (f s, Ok tt).

(** [wpp::warn(pos, ...)] and [std::cerr << text]. *)
Definition warn (pos : Position) (msg : string) : M unit :=
  modify (fun s => set_cerr (cerr s ++ [Warned pos msg]) s).

Definition log (text : string) : M unit :=
  modify (fun s => set_cerr (cerr s ++ [Logged text]) s).

(** [warnings & flag]. *)
Definition enabled (flag : warning_t) : M bool :=
  get (fun s => negb (N.land (warnings s) flag =? 0)%N).

(** [env.tree[id]]. *)
Definition node_at (id : node_t) : M Node :=
  fun s => match tree s !! id with
           | Some v => (s, Ok v)
           | None => (s, Fault BadNode)
           end.

(** [tree.replace<T>(id, ...)] and the writes through a pointer into the
    arena: the slot must exist. *)
Definition replace (id : node_t) (v : Node) : M unit :=
  fun s => if decide (id < length (tree s))
           then (set_tree (<[id := v]> (tree s)) s, Ok tt)
           else (s, Fault BadNode).

(** ** What the evaluator takes from outside [eval.cpp]

    The sentinel handle of the frontend, the build flag that disables the
    shell intrinsics, the parser, and the file system and subprocess
    primitives.  [concat_rhs_first] is the order the build gives to the two
    operands of [eval_ast(lhs) + eval_ast(rhs)] in the [Concat] lambda, which
    C++ leaves to the compiler.  [document path text tree] is the lexer and parser run on
    [text]: it may grow the arena and returns the root handle or the
    exception it threw.  The file system and the subprocesses are functions
    of the current directory. *)
Record Extern := {
  NODE_EMPTY : node_t;
  WPP_DISABLE_RUN : bool;
  concat_rhs_first : bool;
  read_file : string -> string -> option string;
  path_append : string -> string -> string;
  parent_path : string -> string;
  relative : string -> string -> string;
  document : string -> string -> AST -> AST * (Exception + node_t);
  exec : string -> string -> string * Z;
  exec_pipe : string -> string -> string -> string * Z;
}.

(** [int] arithmetic: a sum or difference that leaves the range of [int]
    has no meaning in C++. *)
Definition in_int (z : Z) : bool := ((Str.INT_MIN <=? z) && (z <=? Str.INT_MAX))%Z.

Definition int_add (a b : Z) : M Z :=
  if in_int (a + b) then ret (a + b)%Z else fail IntOverflow.

Definition int_sub (a b : Z) : M Z :=
  if in_int (a - b) then ret (a - b)%Z else fail IntOverflow.

(** The body of [intrinsic_slice] once its three arguments are evaluated. *)
Definition slice (str start_raw end_raw : string) (pos : Position) : M string :=
  match Str.stoi start_raw, Str.stoi end_raw with
  | Some start, Some end_ =>
      let len := Str.wrap_int (Z.of_nat (String.length str)) in
      begin <- (if (start <? 0)%Z then int_add len start else ret start);;
      count <- (if (end_ <? 0)%Z then
                  from_end <- int_add len end_;;
                  span <- int_sub from_end begin;;
                  int_add span 1
                else
                  span <- int_sub end_ begin;;
                  int_add span 1);;
      if (count <=? 0)%Z then
        throw pos "end of slice cannot be before the start."
      else
        past <- int_add begin count;;
        if (len <? past)%Z then
          throw pos "slice extends outside of string bounds."
        else if ((start <? 0) && (0 <=? end_))%Z then
          throw pos "start cannot be negative where end is positive."
        else if ((0 <=? begin) && (begin <=? Z.of_nat (String.length str)))%Z then
          ret (String.substring (Z.to_nat begin) (Z.to_nat count) str)
        else fail SubstrRange
  | _, _ => throw pos "slice range must be numerical."
  end.

(** The body of [intrinsic_find] once its two arguments are evaluated. *)
Definition find (str pattern : string) : string :=
  match Str.find str pattern with
  | Some position => Str.to_string position
  | None => ""
  end.

(** The trim of [intrinsic_run] and [intrinsic_pipe]:
    [if (str.back() == '\n') str.erase(str.end() - 1, str.end());]. *)
Definition trim_newline (str : string) : M string :=
  match Str.back str with
  | None => fail BackOfEmpty
  | Some c => if Ascii.eqb c "010"%char then ret (Str.erase_last str) else ret str
  end.

(** The table [intrinsic_arg_n]. *)
Definition intrinsic_arg_n (type : token_type_t) : nat :=
  match type with
  | TOKEN_SLICE => 3
  | TOKEN_FIND | TOKEN_ASSERT | TOKEN_PIPE => 2
  | TOKEN_ERROR | TOKEN_FILE | TOKEN_ESCAPE | TOKEN_EVAL
  | TOKEN_RUN | TOKEN_SOURCE | TOKEN_LENGTH | TOKEN_LOG => 1
  | TOKEN_NONE => 0
  end.

(** ** The function table *)

(** The registration shared by the [Fn] and [Var] lambdas:
    [emplace_back] on the stack of an existing key, a new one-element
    stack otherwise. *)
Definition define (key : string) (node_id : node_t)
    (fs : gmap string (list node_t)) : gmap string (list node_t) :=
  match fs !! key with
  | Some stack => <[key := stack ++ [node_id]]> fs
  | None => <[key := [node_id]]> fs
  end.

(** The table update of the [Drop] lambda; [None] is its [else] branch,
    the key that is not in the table. *)
Definition drop (key : string)
    (fs : gmap string (list node_t)) : option (gmap string (list node_t)) :=
  match fs !! key with
  | Some stack =>
      match stack with
      | _ :: _ => Some (<[key := removelast stack]> fs)
      | [] => Some (delete key fs)
      end
  | None => None
  end.

(** ** Argument scopes on the C++ stack *)

Definition scope_at (a : nat) : M (gmap string string) :=
  fun s => match scopes s !! a with
           | Some m => (s, Ok m)
           | None => (s, Fault BadScope)
           end.

Definition scope_write (a : nat) (m : gmap string string) : M unit :=
  modify (fun s => set_scopes (<[a := m]> (scopes s)) s).

(** A local [Arguments env_args] of a frame: the object is created with the
    contents [init], [k] runs with its address, and the object is destroyed
    when the frame is left, by a return or by an exception. *)
Definition with_scope {A} (init : gmap string string) (k : nat -> M A) : M A :=
  fun s =>
    let e := length (scopes s) in
    let '(s', r) := k e (set_scopes (scopes s ++ [init]) s) in
    (set_scopes (take e (scopes s')) s', r).

(** ** The evaluator *)

Section Evaluator.

Variable X : Extern.

(** The lambdas of [wpp::visit] and the intrinsics call [eval_ast]
    recursively; they are written over the evaluator [ev] they call, and
    [eval_ast] below ties the knot. *)
Section Visit.

Variable ev : node_t -> option nat -> M string.

Definition intrinsic_assert (expr a b : node_t) (pos : Position)
    (args : option nat) : M string :=
  str_a <- ev a args;;
  str_b <- ev b args;;
  if negb (String.eqb str_a str_b) then throw pos "assertion failed!"
  else ret "".

Definition intrinsic_error (expr : node_t) (pos : Position)
    (args : option nat) : M string :=
  msg <- ev expr args;;
  throw pos msg.

Definition intrinsic_file (expr : node_t) (pos : Position)
    (args : option nat) : M string :=
  fname <- ev expr args;;
  d <- get cwd;;
  match read_file X d (relative X fname d) with
  | Some text => ret text
  | None => throw pos ("failed reading file '" +:+ fname +:+ "'")
  end.

Definition intrinsic_source (expr : node_t) (pos : Position)
    (args : option nat) : M string :=
  fname <- ev expr args;;
  (* Store current path and get the path of the new file. *)
  old_path <- get cwd;;
  let new_path := path_append X old_path fname in
  (* Read the new file. *)
  match read_file X old_path fname with
  | None => throw pos ("file '" +:+ fname +:+ "' not found.")
  | Some file =>
      (* Create lexer, passing the new path relative to base path. *)
      b <- get base;;
      t <- get tree;;
      let '(t', parsed) := document X (relative X new_path b) file t in
      modify (set_tree t');;;
      match parsed with
      | inl e => fun s => (s, Throw e)
      | inr root =>
          modify (set_cwd (parent_path X new_path));;;
          str <- ev root args;;
          modify (set_cwd old_path);;;
          ret str
      end
  end.

Definition intrinsic_log (expr : node_t) (pos : Position)
    (args : option nat) : M string :=
  text <- ev expr args;;
  log text;;;
  ret "".

Definition intrinsic_escape (expr : node_t) (pos : Position)
    (args : option nat) : M string :=
  input <- ev expr args;;
  ret (Str.escape input).

Definition intrinsic_slice (string_expr start_expr end_expr : node_t)
    (pos : Position) (args : option nat) : M string :=
  str <- ev string_expr args;;
  start_raw <- ev start_expr args;;
  end_raw <- ev end_expr args;;
  slice str start_raw end_raw pos.

Definition intrinsic_find (string_expr pattern_expr : node_t)
    (args : option nat) : M string :=
  str <- ev string_expr args;;
  pattern <- ev pattern_expr args;;
  ret (find str pattern).

Definition intrinsic_length (string_expr : node_t) (args : option nat) : M string :=
  str <- ev string_expr args;;
  ret (Str.to_string (String.length str)).

Definition intrinsic_eval (expr : node_t) (pos : Position)
    (args : option nat) : M string :=
  code <- ev expr args;;
  try_catch
    (t <- get tree;;
     let '(t', parsed) := document X "<eval>" code t in
     modify (set_tree t');;;
     match parsed with
     | inl e => fun s => (s, Throw e)
     | inr root => ev root args
     end)
    (fun e => throw pos ("inside eval: " +:+ what e)).

Definition intrinsic_run (expr : node_t) (pos : Position)
    (args : option nat) : M string :=
  if WPP_DISABLE_RUN X then throw pos "run not available."
  else
    cmd <- ev expr args;;
    d <- get cwd;;
    let '(out, rc) := exec X d cmd in
    (* trim trailing newline. *)
    str <- trim_newline out;;
    if negb (rc =? 0)%Z then throw pos "subprocess exited with non-zero status."
    else ret str.

Definition intrinsic_pipe (cmd data : node_t) (pos : Position)
    (args : option nat) : M string :=
  if WPP_DISABLE_RUN X then throw pos "pipe not available."
  else
    cmd_str <- ev cmd args;;
    data_str <- ev data args;;
    d <- get cwd;;
    let '(captured, rc) := exec_pipe X d cmd_str data_str in
    (* trim trailing newline. *)
    out <- trim_newline captured;;
    if negb (rc =? 0)%Z then throw pos "subprocess exited with non-zero status."
    else ret out.

(** The [Intrinsic] lambda: arity check, then dispatch. *)
Definition visit_intrinsic (node_id : node_t) (type : token_type_t)
    (name : string) (exprs : list node_t) (pos : Position)
    (args : option nat) : M string :=
  let n_args := intrinsic_arg_n type in
  if negb (n_args =? length exprs) then
    throw pos (name +:+ " takes exactly " +:+ Str.to_string n_args +:+ " arguments.")
  else
    match type, exprs with
    | TOKEN_ASSERT, [e0; e1] => intrinsic_assert node_id e0 e1 pos args
    | TOKEN_ERROR, [e0] => intrinsic_error e0 pos args
    | TOKEN_FILE, [e0] => intrinsic_file e0 pos args
    | TOKEN_SOURCE, [e0] => intrinsic_source e0 pos args
    | TOKEN_ESCAPE, [e0] => intrinsic_escape e0 pos args
    | TOKEN_EVAL, [e0] => intrinsic_eval e0 pos args
    | TOKEN_RUN, [e0] => intrinsic_run e0 pos args
    | TOKEN_PIPE, [e0; e1] => intrinsic_pipe e0 e1 pos args
    | TOKEN_SLICE, [e0; e1; e2] => intrinsic_slice e0 e1 e2 pos args
    | TOKEN_FIND, [e0; e1] => intrinsic_find e0 e1 args
    | TOKEN_LENGTH, [e0] => intrinsic_length e0 args
    | TOKEN_LOG, [e0] => intrinsic_log e0 pos args
    | _, _ => ret ""
    end.

(** [for (node : stmts) str += eval_ast(node, env, args);], the loop of
    [Block] and [Document]; [Pre] builds its prefix with the same loop. *)
Fixpoint eval_stmts (stmts : list node_t) (args : option nat)
    (str : string) : M string :=
  match stmts with
  | [] => ret str
  | node :: rest =>
      r <- ev node args;;
      eval_stmts rest args (str +:+ r)
  end.

(** The [std::find_if] of the [Map] lambda: the first arm whose
    evaluated pattern equals [test_str]. *)
Fixpoint find_if (test_str : string) (cases : list (node_t * node_t))
    (args : option nat) : M (option (node_t * node_t)) :=
  match cases with
  | [] => ret None
  | elem :: rest =>
      pattern <- ev elem.1 args;;
      if String.eqb test_str pattern then ret (Some elem)
      else find_if test_str rest args
  end.

(** The argument loop of the [FnInvoke] lambda; [e] is the address of
    the local [env_args], [i] the loop counter. *)
Fixpoint bind_args (e : nat) (callee_name : string) (callee_pos : Position)
    (params : list string) (caller_args : list node_t) (i : nat)
    (args : option nat) : M unit :=
  match caller_args with
  | [] => ret tt
  | arg :: rest =>
      result <- ev arg args;;
      match params !! i with
      | None => fail BadParam
      | Some p =>
          env_args <- scope_at e;;
          match env_args !! p with
          | Some _ =>
              w <- enabled WARN_PARAM_SHADOW_PARAM;;
              (if w : bool then
                 warn callee_pos ("parameter '" +:+ p +:+ "' inside function '"
                   +:+ callee_name +:+ "' shadows parameter from parent scope.")
               else ret tt);;;
              scope_write e (<[p := result]> env_args)
          | None =>
              again <- ev arg args;;
              env_args <- scope_at e;;
              scope_write e (<[p := again]> env_args)
          end
      end;;;
      bind_args e callee_name callee_pos params rest (S i) args
  end.

Definition visit_fn_invoke (caller_name : string) (caller_args : list node_t)
    (caller_pos : Position) (args : option nat) : M string :=
  let caller_mangled_name := cat caller_name (length caller_args) in
  (* Check if parameter. *)
  hit <- match args with
         | Some a => m <- scope_at a;; ret (m !! caller_name)
         | None => ret None
         end;;
  match hit with
  | Some value =>
      if 0 <? length caller_args then
        throw caller_pos ("calling argument '" +:+ caller_name
                          +:+ "' as if it were a function.")
      else
        (* Check if it's shadowing a function (even this one). *)
        w <- enabled WARN_PARAM_SHADOW_FUNC;;
        fs <- get functions;;
        (if (w : bool) && bool_decide (is_Some (fs !! cat caller_name 0)) then
           warn caller_pos ("parameter " +:+ caller_name +:+ " is shadowing a function.")
         else ret tt);;;
        ret value
  | None =>
      (* If it wasn't a parameter, we fall through to here and check if
         it's a function. *)
      fs <- get functions;;
      match fs !! caller_mangled_name with
      | None => throw caller_pos ("func not found: " +:+ caller_name +:+ ".")
      | Some stack =>
          match last stack with
          | None => throw caller_pos ("func not found: " +:+ caller_name +:+ ".")
          | Some top =>
              func <- node_at top;;
              match func with
              | wpp.Fn callee_name params body callee_pos =>
                  (* Set up Arguments to pass down to function body. *)
                  inherited <- match args with
                               | Some a => scope_at a
                               | None => ret ∅
                               end;;
                  with_scope inherited (fun e =>
                    (* Evaluate arguments and store their result. *)
                    bind_args e callee_name callee_pos params caller_args 0 args;;;
                    (* Call function. *)
                    ev body (Some e))
              | _ => fail BadNode
              end
          end
      end
  end.

Definition visit_fn (node_id : node_t) (name : string) (params : list string)
    (pos : Position) : M string :=
  fs <- get functions;;
  (if bool_decide (is_Some (fs !! cat name (length params))) then
     w <- enabled WARN_FUNC_REDEFINED;;
     if w : bool then warn pos ("function '" +:+ name +:+ "' redefined.") else ret tt
   else ret tt);;;
  modify (set_functions (define (cat name (length params)) node_id fs));;;
  ret "".

Definition visit_var (node_id : node_t) (name : string) (body : node_t)
    (pos : Position) (args : option nat) : M string :=
  let func_name := cat name 0 in
  str <- ev body args;;
  (* Replace body with a string of the evaluation result. *)
  replace body (wpp.String str pos);;;
  (* Replace Var node with Fn node. *)
  replace node_id (wpp.Fn func_name [] body pos);;;
  fs <- get functions;;
  (if bool_decide (is_Some (fs !! func_name)) then
     w <- enabled WARN_VARFUNC_REDEFINED;;
     if w : bool then warn pos ("function/variable '" +:+ name +:+ "' redefined.")
     else ret tt
   else ret tt);;;
  modify (set_functions (define func_name node_id fs));;;
  ret "".

Definition visit_drop (func_id : node_t) (pos : Position) : M string :=
  func <- node_at func_id;;
  match func with
  | wpp.FnInvoke caller_name caller_args caller_pos =>
      let caller_mangled_name := cat caller_name (length caller_args) in
      fs <- get functions;;
      match drop caller_mangled_name fs with
      | Some fs' => modify (set_functions fs');;; ret ""
      | None =>
          throw pos ("cannot drop undefined function '" +:+ caller_name +:+ "' ("
                     +:+ Str.to_string (length caller_args) +:+ " parameters).")
      end
  | _ => throw pos "invalid function passed to drop."
  end.

Definition visit_map (test : node_t) (cases : list (node_t * node_t))
    (default_case : node_t) (pos : Position) (args : option nat) : M string :=
  test_str <- ev test args;;
  (* Compare test_str with arms of the map. *)
  it <- find_if test_str cases args;;
  match it with
  | Some arm => ev arm.2 args
  | None =>
      if decide (default_case = NODE_EMPTY X) then throw pos "no matches found."
      else ev default_case args
  end.

(** [exprs] of the [Pre] lambda is a reference into the arena, and a
    nested evaluation may have extended that list since the lambda was
    entered: it is read where the loop uses it. *)
Definition pre_exprs (node_id : node_t) : M (list node_t) :=
  pre <- node_at node_id;;
  match pre with
  | wpp.Pre exprs _ _ => ret exprs
  | _ => fail BadNode
  end.

(** One round of the loop of the [Pre] lambda: an [Fn] statement is
    renamed in place before it is evaluated, a nested [Pre] inherits the
    prefix expressions, any other statement is evaluated as it is. *)
Definition pre_stmt (node_id stmt : node_t) (args : option nat) : M string :=
  target <- node_at stmt;;
  match target with
  | wpp.Fn _ _ _ _ =>
      exprs <- pre_exprs node_id;;
      name <- eval_stmts (rev exprs) args "";;
      func <- node_at stmt;;
      match func with
      | wpp.Fn identifier params body fpos =>
          replace stmt (wpp.Fn (name +:+ identifier) params body fpos);;;
          ev stmt args
      | _ => fail BadNode
      end
  | wpp.Pre inner_exprs inner_stmts inner_pos =>
      exprs <- pre_exprs node_id;;
      replace stmt (wpp.Pre (inner_exprs ++ exprs) inner_stmts inner_pos);;;
      ev stmt args
  | _ => ev stmt args
  end.

Fixpoint pre_stmts (node_id : node_t) (stmts : list node_t)
    (args : option nat) (str : string) : M string :=
  match stmts with
  | [] => ret str
  | stmt :: rest =>
      r <- pre_stmt node_id stmt args;;
      pre_stmts node_id rest args (str +:+ r)
  end.

(** [wpp::visit(variant, ...)]. *)
Definition visit (node_id : node_t) (variant : Node) (args : option nat) : M string :=
  match variant with
  | wpp.Intrinsic type name exprs pos =>
      visit_intrinsic node_id type name exprs pos args
  | wpp.FnInvoke caller_name caller_args caller_pos =>
      visit_fn_invoke caller_name caller_args caller_pos args
  | wpp.Fn name params body pos => visit_fn node_id name params pos
  | wpp.Codeify expr pos => intrinsic_eval expr pos args
  | wpp.Var name body pos => visit_var node_id name body pos args
  | wpp.Drop func_id pos => visit_drop func_id pos
  | wpp.String value _ => ret value
  | wpp.Concat lhs rhs pos =>
      (* [eval_ast(lhs) + eval_ast(rhs)]: the operands in the order of the build *)
      if concat_rhs_first X then
        r <- ev rhs args;;
        l <- ev lhs args;;
        ret (l +:+ r)
      else
        l <- ev lhs args;;
        r <- ev rhs args;;
        ret (l +:+ r)
  | wpp.Block stmts expr pos =>
      eval_stmts stmts args "";;;
      ev expr args
  | wpp.Map test cases default_case pos =>
      visit_map test cases default_case pos args
  | wpp.Pre exprs stmts pos => pre_stmts node_id stmts args ""
  | wpp.Document stmts => eval_stmts stmts args ""
  end.

End Visit.

(** The core of the evaluator.  [fuel] bounds the depth of the recursion. *)
Fixpoint eval_ast (fuel : nat) (node_id : node_t) (args : option nat) : M string :=
  match fuel with
  | 0 => fun s => (s, OutOfFuel)
  | S fuel' =>
      variant <- node_at node_id;;
      visit (eval_ast fuel') node_id variant args
  end.

End Evaluator.

(** ** A small host for the examples

    Files are read relative to the current directory, the stand-in parser
    knows three kinds of text: a text starting with [!] is a document that
    raises its remainder through [error], a text starting with [?] does not
    parse, any other text is a document made of that one literal. *)
Module Demo.

Definition p0 : Position := {| pos_line := 1; pos_column := 1 |}.

Fixpoint parent (path : string) : option string :=
  match path with
  | EmptyString => None
  | String.String c rest =>
      match parent rest with
      | Some p => Some (String.String c p)
      | None => if Ascii.eqb c "/"%char then Some EmptyString else None
      end
  end.

Definition join (dir name : string) : string := dir +:+ "/" +:+ name.

Definition files (path : string) : option string :=
  if String.eqb path "/home/inc/bad.wpp" then Some "!boom"
  else if String.eqb path "/home/inc/good.wpp" then Some "hello"
  else if String.eqb path "/home/inc/odd.wpp" then Some "?"
  else None.

Definition parse (path text : string) (t : AST) : AST * (Exception + node_t) :=
  let n := length t in
  match text with
  | String.String "!"%char msg =>
      (t ++ [wpp.String msg p0;
             wpp.Intrinsic TOKEN_ERROR "error" [n] p0;
             wpp.Document [S n]], inr (S (S n)))
  | String.String "?"%char _ =>
      (t, inl {| exc_pos := p0; what := "unexpected token" |})
  | _ => (t ++ [wpp.String text p0; wpp.Document [n]], inr (S n))
  end.

Definition newline : string := String.String "010"%char EmptyString.

Definition shell (dir cmd : string) : string * Z :=
  if String.eqb cmd "true" then ("", 0%Z)
  else if String.eqb cmd "echo hi" then ("hi" +:+ newline, 0%Z)
  else ("", 1%Z).

Definition host : Extern := {|
  NODE_EMPTY := 999;
  WPP_DISABLE_RUN := false;
  concat_rhs_first := true;
  read_file := fun dir name => files (join dir name);
  path_append := join;
  parent_path := fun path => default "" (parent path);
  relative := fun path _ => path;
  document := parse;
  exec := shell;
  exec_pipe := fun dir cmd _ => shell dir cmd;
|}.

(** The state the driver [wpp::run] starts from, for a given arena. *)
Definition start (t : AST) : State := {|
  base := "/home"; functions := ∅; tree := t; warnings := WARN_ALL;
  cwd := "/home"; cerr := []; scopes := [];
|}.

Definition run (fuel : nat) (t : AST) (root : node_t) : State * Res string :=
  eval_ast host fuel root None (start t).

End Demo.

(** ** Vocabulary of the statements proved below *)

(** [m] moves every state to one related to it by [P], whatever it returns. *)
Definition keeps {A} (P : State -> State -> Prop) (m : M A) : Prop :=
  forall s, P s (m s).1.

(** The [Arguments] objects of all live frames are the same. *)
Definition same_scopes (s s' : State) : Prop := scopes s' = scopes s.

(** The objects below address [e] are the same and no frame was added or
    removed: what a callee that owns the object at [e] may do. *)
Definition same_below (e : nat) (s s' : State) : Prop :=
  take e (scopes s') = take e (scopes s) /\ length (scopes s') = length (scopes s).

(** Statements evaluated one after the other, each returning a string:
    [stmts_run ev args stmts s outs s'] threads the state from [s] to [s']
    and collects the returned strings in [outs]. *)
Inductive stmts_run (ev : node_t -> option nat -> M string) (args : option nat) :
    list node_t -> State -> list string -> State -> Prop :=
| stmts_run_nil s : stmts_run ev args [] s [] s
| stmts_run_cons node rest s out s1 outs s2 :
    ev node args s = (s1, Ok out) ->
    stmts_run ev args rest s1 outs s2 ->
    stmts_run ev args (node :: rest) s (out :: outs) s2.

(** Arms of a [Map] whose patterns are evaluated one after the other and
    all differ from the test string [t]. *)
Inductive arms_mismatch (ev : node_t -> option nat -> M string) (args : option nat)
    (t : string) : list (node_t * node_t) -> State -> State -> Prop :=
| arms_mismatch_nil s : arms_mismatch ev args t [] s s
| arms_mismatch_cons pattern body rest s v s1 s2 :
    ev pattern args s = (s1, Ok v) ->
    v <> t ->
    arms_mismatch ev args t rest s1 s2 ->
    arms_mismatch ev args t ((pattern, body) :: rest) s s2.

(** The stack height of a key of the function table, zero for a key that is
    not in the table. *)
Definition height (key : string) (fs : gmap string (list node_t)) : nat :=
  match fs !! key with
  | Some stack => length stack
  | None => 0
  end.

(** The prefix list of the [Pre] node [node_id] is empty whenever the loop
    over [stmts] is about to take a statement: no statement evaluated on
    the way has extended it. *)
Fixpoint prefix_stays_empty (ev : node_t -> option nat -> M string)
    (node_id : node_t) (stmts : list node_t) (args : option nat) (s : State) : bool :=
  match stmts with
  | [] => true
  | stmt :: rest =>
      match tree s !! node_id with
      | Some (wpp.Pre [] _ _) =>
          match ev stmt args s with
          | (s', Ok _) => prefix_stays_empty ev node_id rest args s'
          | _ => true
          end
      | _ => false
      end
  end.

(** The strings of a list, concatenated. *)
Fixpoint concat_all (outs : list string) : string :=
  match outs with
  | [] => ""
  | out :: rest => out +:+ concat_all rest
  end.

(** ** Substrings, for the relation between [find] and [slice] *)

(** [p] occurs in [s] at byte position [i]. *)
Definition occurs_at (i : nat) (p s : string) : Prop :=
  exists pre post, s = pre +:+ p +:+ post /\ String.length pre = i.

(** [p] is a substring of [s]. *)
Definition occurs (p s : string) : Prop := exists i, occurs_at i p s.

(** The property of [find] and [slice] as the specification words it:
    [find(s, p)] is empty iff [p] is not a substring of [s]; otherwise it is
    the decimal index [i] of the first occurrence and
    [slice(s, i, i + |p| - 1)] is [p]. *)
Definition find_slice_claim (s p : string) : Prop :=
  (find s p = "" <-> ~ occurs p s)
  /\ (occurs p s ->
      exists i : nat,
        find s p = Str.to_string i
        /\ occurs_at i p s
        /\ (forall j, occurs_at j p s -> i <= j)
        /\ forall pos st,
             slice s (Str.to_string i)
               (pretty (Z.of_nat i + Z.of_nat (String.length p) - 1)%Z) pos st
             = (st, Ok p)).

(** ** Sequences of operations on one key of the function table *)

(** What the evaluator does to the stack of a key: [OpDefine] is the
    registration done by the [Fn] and [Var] lambdas, [OpDrop] the update
    done by the [Drop] lambda. *)
Inductive table_op :=
| OpDefine (node_id : node_t)
| OpDrop.

Definition apply_op (key : string) (op : table_op)
    (fs : gmap string (list node_t)) : option (gmap string (list node_t)) :=
  match op with
  | OpDefine node_id => Some (define key node_id fs)
  | OpDrop => drop key fs
  end.

(** The operations applied in order; [None] when a [Drop] throws. *)
Fixpoint apply_ops (key : string) (ops : list table_op)
    (fs : gmap string (list node_t)) : option (gmap string (list node_t)) :=
  match ops with
  | [] => Some fs
  | op :: rest =>
      match apply_op key op fs with
      | Some fs' => apply_ops key rest fs'
      | None => None
      end
  end.

Fixpoint defines (ops : list table_op) : nat :=
  match ops with
  | [] => 0
  | OpDefine _ :: rest => S (defines rest)
  | OpDrop :: rest => defines rest
  end.

Fixpoint drops (ops : list table_op) : nat :=
  match ops with
  | [] => 0
  | OpDefine _ :: rest => drops rest
  | OpDrop :: rest => S (drops rest)
  end.

(** Starting from a stack of height [h], no [OpDrop] of the sequence finds
    the stack empty. *)
Fixpoint pops_only (h : nat) (ops : list table_op) : bool :=
  match ops with
  | [] => true
  | OpDefine _ :: rest => pops_only (S h) rest
  | OpDrop :: rest =>
      match h with
      | 0 => false
      | S h' => pops_only h' rest
      end
  end.

(** The operation a statement performs on the stack of [key]: a definition
    of that key, or a [Drop] whose target names it. *)
Definition stmt_op (t : AST) (key : string) (stmt : node_t) : option table_op :=
  match t !! stmt with
  | Some (wpp.Fn name params _ _) =>
      if decide (cat name (length params) = key) then Some (OpDefine stmt) else None
  | Some (wpp.Drop target _) =>
      match t !! target with
      | Some (wpp.FnInvoke name arguments _) =>
          if decide (cat name (length arguments) = key) then Some OpDrop else None
      | _ => None
      end
  | _ => None
  end.

Fixpoint stmt_ops (t : AST) (key : string) (stmts : list node_t) : option (list table_op) :=
  match stmts with
  | [] => Some []
  | stmt :: rest =>
      match stmt_op t key stmt, stmt_ops t key rest with
      | Some op, Some ops => Some (op :: ops)
      | _, _ => None
      end
  end.

(** ** Example programs, as the parser would lay them out in the arena *)
Module Programs.

Import Demo.

(** [match "b" { "a" -> "1", "b" -> "2", * -> "3" }] *)
Definition match_b : AST :=
  [wpp.String "b" p0; wpp.String "a" p0; wpp.String "1" p0;
   wpp.String "b" p0; wpp.String "2" p0; wpp.String "3" p0;
   wpp.Map 0 [(1, 2); (3, 4)] 5 p0].

(** [{ log("x") "y" "v" }]: a block of two statements and a trailing
    expression. *)
Definition block_v : AST :=
  [wpp.String "x" p0; wpp.Intrinsic TOKEN_LOG "log" [0] p0;
   wpp.String "y" p0; wpp.String "v" p0; wpp.Block [1; 2] 3 p0].

(** The statement [let g() "hi"] under a [Pre] without prefix (node 3)
    and under a [Block] with an empty trailing literal (node 4). *)
Definition pre_definition : AST :=
  [wpp.String "hi" p0; wpp.Fn "g" [] 0 p0; wpp.String "" p0;
   wpp.Pre [] [1] p0; wpp.Block [1] 2 p0].

(** The statement ["a"] under a [Pre] without prefix (node 2) and under
    a [Block] with an empty trailing literal (node 3). *)
Definition pre_text : AST :=
  [wpp.String "a" p0; wpp.String "" p0;
   wpp.Pre [] [0] p0; wpp.Block [0] 1 p0].

(** [let f() "b"  drop f()] (node 4), followed by a second [drop f()]
    (node 5) and a third (node 6). *)
Definition define_drop : AST :=
  [wpp.String "b" p0; wpp.Fn "f" [] 0 p0; wpp.FnInvoke "f" [] p0;
   wpp.Drop 2 p0; wpp.Document [1; 3]; wpp.Document [1; 3; 3];
   wpp.Document [1; 3; 3; 3]].

(** [source("inc/bad.wpp")], [source("inc/good.wpp")] and
    [source("inc/odd.wpp")]: the first file raises an error when it is
    evaluated, the third does not parse. *)
Definition source_bad : AST :=
  [wpp.String "inc/bad.wpp" p0; wpp.Intrinsic TOKEN_SOURCE "source" [0] p0].

Definition source_good : AST :=
  [wpp.String "inc/good.wpp" p0; wpp.Intrinsic TOKEN_SOURCE "source" [0] p0].

Definition source_odd : AST :=
  [wpp.String "inc/odd.wpp" p0; wpp.Intrinsic TOKEN_SOURCE "source" [0] p0].

(** [let f(a) "body"  f(log("x"))] (node 5), and the same call made from
    inside [let g(a) f(log("x"))], where [a] is already bound (node 9). *)
Definition call_log : AST :=
  [wpp.String "x" p0; wpp.Intrinsic TOKEN_LOG "log" [0] p0;
   wpp.String "body" p0; wpp.Fn "f" ["a"] 2 p0;
   wpp.FnInvoke "f" [1] p0; wpp.Document [3; 4];
   wpp.Fn "g" ["a"] 4 p0; wpp.String "q" p0; wpp.FnInvoke "g" [7] p0;
   wpp.Document [3; 6; 8]].

(** [let x "v"] (node 1), and a document that evaluates that statement
    twice (node 2). *)
Definition let_x : AST :=
  [wpp.String "v" p0; wpp.Var "x" 0 p0; wpp.Document [1; 1]].

(** [run("true")] (node 1), [pipe("true", "true")] (node 2) and
    [run("echo hi")] (node 4). *)
Definition shell_calls : AST :=
  [wpp.String "true" p0; wpp.Intrinsic TOKEN_RUN "run" [0] p0;
   wpp.Intrinsic TOKEN_PIPE "pipe" [0; 0] p0;
   wpp.String "echo hi" p0; wpp.Intrinsic TOKEN_RUN "run" [3] p0].

(** [let greet(x) "hello " .. x  greet("world")] *)
Definition greet : AST :=
  [wpp.String "hello " p0; wpp.FnInvoke "x" [] p0; wpp.Concat 0 1 p0;
   wpp.Fn "greet" ["x"] 2 p0; wpp.String "world" p0;
   wpp.FnInvoke "greet" [4] p0; wpp.Document [3; 5]].

End Programs.

(** ** Vocabulary of the further properties *)

(** The base directory and the warning flags are the same. *)
Definition same_config (s s' : State) : Prop :=
  base s' = base s /\ warnings s' = warnings s.

(** The arena has not lost a slot. *)
Definition arena_grows (s s' : State) : Prop :=
  length (tree s) <= length (tree s').

(** The contract of the parser the evaluator relies on: it adds nodes to the
    arena and removes none. *)
Definition parser_appends (X : Extern) : Prop :=
  forall path text t, length t <= length (document X path text t).1.

(** [m] relates the state it starts from to the state it returns in. *)
Definition returns_in {A} (P : State -> State -> Prop) (m : M A) : Prop :=
  forall s s' a, m s = (s', Ok a) -> P s s'.

(** The current directory is the same. *)
Definition same_cwd (s s' : State) : Prop := cwd s' = cwd s.

(** The byte [c] is in the string. *)
Fixpoint has_byte (c : ascii) (s : string) : bool :=
  match s with
  | EmptyString => false
  | String.String d rest => Ascii.eqb c d || has_byte c rest
  end.

(** The line feed, as a one-byte string. *)
Definition endl : string := String.String "010"%char EmptyString.

(** The value of a string of decimal digits, most significant first;
    [None] when the string holds another byte. *)
Fixpoint digits_value (s : string) (acc : N) : option N :=
  match s with
  | EmptyString => Some acc
  | String.String c rest =>
      match Str.digit_of c with
      | Some d => digits_value rest (10 * acc + d)
      | None => None
      end
  end.

(** [s] is the decimal numeral of [n]: at least one byte, decimal digits
    only, no leading zero (the numeral of zero is the one digit), and the
    value [n]. *)
Definition decimal_numeral (n : N) (s : string) : Prop :=
  s <> ""
  /\ digits_value s 0 = Some n
  /\ forall rest, s = String.String "0"%char rest -> rest = "".

(** The position a bound of [slice] stands for in a string of [len] bytes:
    a negative bound counts from the end. *)
Definition slice_from (len b : Z) : Z := if (b <? 0)%Z then (len + b)%Z else b.

(** The handles [exprs] are string literals with the values [vs]. *)
Definition literals (t : AST) (exprs : list node_t) (vs : list string) : Prop :=
  Forall2 (fun e v => exists pos, t !! e = Some (wpp.String v pos)) exprs vs.

(** The bindings [pvs] written one after the other into the scope [m]. *)
Definition bind_all (m : gmap string string) (pvs : list (string * string)) :
    gmap string string :=
  foldl (fun acc pv => <[pv.1 := pv.2]> acc) m pvs.

(** ** The driver [wpp::run] *)
Module Driver.

(** What the process writes to the diagnostic stream: the diagnostics of the
    evaluator, the text the driver prints itself, and the report of
    [wpp::error] for an exception that reached the driver. *)
Inductive Report :=
| Diagnostic (d : Diag)
| Error (pos : Position) (msg : string).

(** The process around the evaluator: current directory, standard output,
    diagnostic stream. *)
Record Process := {
  p_cwd : string;
  p_cout : string;
  p_cerr : list Report;
}.

(** How [run] ends: it returns an exit code, or the evaluation took a turn
    C++ gives no meaning to, or the model ran out of fuel. *)
Inductive Exit :=
| Return (code : Z)
| Abort (f : fault)
| Unfinished.

Definition run (X : Extern) (fuel : nat) (fname : string)
    (warning_flags : warning_t) (p : Process) : Process * Exit :=
  match read_file X (p_cwd p) fname with
  | None =>
      ({| p_cwd := p_cwd p; p_cout := p_cout p;
          p_cerr := p_cerr p ++ [Diagnostic (Logged ("file not found." +:+ endl))] |},
       Return 1)
  | Some file =>
      (* Set current path to path of file. *)
      let path := path_append X (p_cwd p) fname in
      let dir := parent_path X path in
      let '(t, parsed) := document X dir file [] in
      match parsed with
      | inl e =>
          ({| p_cwd := dir; p_cout := p_cout p;
              p_cerr := p_cerr p ++ [Error (exc_pos e) (what e)] |}, Return 1)
      | inr root =>
          let env := {| base := dir; functions := ∅; tree := t;
                        warnings := warning_flags; cwd := dir; cerr := [];
                        scopes := [] |} in
          let '(s, r) := eval_ast X fuel root None env in
          let diag := p_cerr p ++ (Diagnostic <$> cerr s) in
          match r with
          | Ok str =>
              ({| p_cwd := cwd s; p_cout := p_cout p +:+ str; p_cerr := diag |},
               Return 0)
          | Throw e =>
              ({| p_cwd := cwd s; p_cout := p_cout p;
                  p_cerr := diag ++ [Error (exc_pos e) (what e)] |}, Return 1)
          | Fault f =>
              ({| p_cwd := cwd s; p_cout := p_cout p; p_cerr := diag |}, Abort f)
          | OutOfFuel =>
              ({| p_cwd := cwd s; p_cout := p_cout p; p_cerr := diag |}, Unfinished)
          end
      end
  end.

End Driver.

(** ** Further example programs *)
Module Scripts.

Import Demo.

(** [eval("!boom")]: the evaluated text is a document that raises [boom]. *)
Definition eval_boom : AST :=
  [wpp.String "!boom" p0; wpp.Intrinsic TOKEN_EVAL "eval" [0] p0].

(** [let x "v"  x]: the definition (node 1) and the read (node 2). *)
Definition let_then_read : AST :=
  [wpp.String "v" p0; wpp.Var "x" 0 p0; wpp.FnInvoke "x" [] p0].

(** [log("x")  error("boom")  log("y")] *)
Definition log_error_log : AST :=
  [wpp.String "x" p0; wpp.Intrinsic TOKEN_LOG "log" [0] p0;
   wpp.String "boom" p0; wpp.Intrinsic TOKEN_ERROR "error" [2] p0;
   wpp.String "y" p0; wpp.Intrinsic TOKEN_LOG "log" [4] p0;
   wpp.Document [1; 3; 5]].

(** [prefix "ns_" { let g() "hi" }] *)
Definition prefix_ns : AST :=
  [wpp.String "ns_" p0; wpp.String "hi" p0; wpp.Fn "g" [] 1 p0;
   wpp.Pre [0] [2] p0].

(** [length("hello")] *)
Definition length_hello : AST :=
  [wpp.String "hello" p0; wpp.Intrinsic TOKEN_LENGTH "length" [0] p0].

(** A caller whose scope binds [x] to [v]. *)
Definition in_scope : State :=
  set_scopes [{["x" := "v"]}] (start []).

(** The arena of [Programs.greet] once [greet] is defined. *)
Definition greet_defined : State :=
  set_functions {["greet1" := [3]]} (start Programs.greet).

(** The process the driver is started in. *)
Definition shell_process : Driver.Process :=
  {| Driver.p_cwd := "/home"; Driver.p_cout := ""; Driver.p_cerr := [] |}.

(** [let g() p  let f(p) g()  f("v")]: [g] reads the parameter of its
    caller [f]. *)
Definition inherit : AST :=
  [wpp.String "v" p0; wpp.FnInvoke "p" [] p0; wpp.Fn "g" [] 1 p0;
   wpp.FnInvoke "g" [] p0; wpp.Fn "f" ["p"] 3 p0; wpp.FnInvoke "f" [0] p0;
   wpp.Document [2; 4; 5]].

(** The state the body of [f] runs in: both functions defined, the scope
    of [f] at address 0 binding [p]. *)
Definition inside_f : State :=
  set_scopes [{["p" := "v"]}]
    (set_functions {["g0" := [2]; "f1" := [4]]} (start inherit)).

(** [let f() "b"  drop f()  let g(f) f  g("v")] (node 7) and
    [let f() "b"  drop f()  let f() "b"] (node 8). *)
Definition after_drop : AST :=
  [wpp.String "b" p0; wpp.Fn "f" [] 0 p0; wpp.FnInvoke "f" [] p0;
   wpp.Drop 2 p0; wpp.Fn "g" ["f"] 2 p0; wpp.String "v" p0;
   wpp.FnInvoke "g" [5] p0; wpp.Document [1; 3; 4; 6]; wpp.Document [1; 3; 1]].

End Scripts.

Create HintDb keeps.

(** * Properties *)

(** ** Equations of the monad and of the evaluator *)

Lemma bind_ok {A B} (m : M A) (k : A -> M B) s s1 a :
  m s = (s1, Ok a) -> bind m k s = k a s1.
Proof. intros H. unfold bind. by rewrite H. Qed.

Lemma node_at_ok id s v : tree s !! id = Some v -> node_at id s = (s, Ok v).
Proof. intros H. unfold node_at. by rewrite H. Qed.

Lemma eval_ast_visit X n node_id args s v :
  tree s !! node_id = Some v ->
  eval_ast X (S n) node_id args s = visit X (eval_ast X n) node_id v args s.
Proof. intros H. simpl. by rewrite (bind_ok _ _ _ _ _ (node_at_ok _ _ _ H)). Qed.

Lemma bind_ret {A B} (a : A) (k : A -> M B) s : bind (ret a) k s = k a s.
Proof. reflexivity. Qed.

Lemma set_tree_same s : set_tree (tree s) s = s.
Proof. by destruct s. Qed.

Lemma set_cerr_same s : set_cerr (cerr s) s = s.
Proof. by destruct s. Qed.

Lemma replace_same id v s :
  tree s !! id = Some v -> replace id v s = (s, Ok tt).
Proof.
  intros H. unfold replace. rewrite decide_True by (by eapply lookup_lt_Some).
  by rewrite list_insert_id, set_tree_same.
Qed.

Lemma eval_ast_bad_node X n node_id args s :
  tree s !! node_id = None -> eval_ast X (S n) node_id args s = (s, Fault BadNode).
Proof. intros H. simpl. unfold bind, node_at. by rewrite H. Qed.

Lemma scope_at_ok a s m : scopes s !! a = Some m -> scope_at a s = (s, Ok m).
Proof. intros H. unfold scope_at. by rewrite H. Qed.

Lemma replace_ok id v s :
  id < length (tree s) -> replace id v s = (set_tree (<[id := v]> (tree s)) s, Ok tt).
Proof. intros H. unfold replace. by rewrite decide_True. Qed.

(** ** Strings *)

Lemma append_cons c (a b : string) : String.String c a +:+ b = String.String c (a +:+ b).
Proof. reflexivity. Qed.

Lemma append_assoc (a b c : string) : (a +:+ b) +:+ c = a +:+ (b +:+ c).
Proof. induction a as [|x a IH]; [done|]. rewrite !append_cons. by f_equal. Qed.

Lemma append_empty_r (a : string) : a +:+ "" = a.
Proof. induction a as [|x a IH]; [done|]. rewrite append_cons. by f_equal. Qed.

Lemma length_append (a b : string) :
  String.length (a +:+ b) = String.length a + String.length b.
Proof. induction a as [|x a IH]; [done|]. rewrite append_cons. simpl. by rewrite IH. Qed.

(** *** [std::string::find] *)

Lemma prefix_true p s : String.prefix p s = true <-> exists post, s = p +:+ post.
Proof.
  revert s. induction p as [|c p IH]; intros [|d s]; simpl.
  - split; [intros _; by exists "" | done].
  - split; [intros _; by exists (String.String d s) | done].
  - split; [done | intros [post Hpost]; discriminate].
  - destruct (ascii_dec c d) as [->|Hne].
    + rewrite IH. split; intros [post Hpost]; exists post.
      * rewrite append_cons. by f_equal.
      * rewrite append_cons in Hpost. by injection Hpost.
    + split; [done|]. intros [post Hpost]. rewrite append_cons in Hpost.
      injection Hpost as ? ?. congruence.
Qed.

Lemma find_from_some k s p i :
  Str.find_from k s p = Some i ->
  exists j, i = k + j /\ occurs_at j p s /\ forall j', occurs_at j' p s -> j <= j'.
Proof.
  revert k. induction s as [|c s IH]; intros k; cbn [Str.find_from].
  - destruct (String.prefix p "") eqn:Hpre; [|done].
    intros [= <-]. exists 0. split; [lia|]. split; [|lia].
    apply prefix_true in Hpre as [post Hpost]. by exists "", post.
  - destruct (String.prefix p (String.String c s)) eqn:Hpre.
    + intros [= <-]. exists 0. split; [lia|]. split; [|lia].
      apply prefix_true in Hpre as [post Hpost]. by exists "", post.
    + intros Hfind. apply IH in Hfind as (j & -> & (pre & post & Hs & Hlen) & Hmin).
      exists (S j). split; [lia|]. split.
      * exists (String.String c pre), post. rewrite append_cons, Hs. simpl. by rewrite Hlen.
      * intros j' (pre' & post' & Hs' & Hlen').
        destruct pre' as [|d pre'].
        -- assert (String.prefix p (String.String c s) = true) as Habs; [|congruence].
           apply prefix_true. by exists post'.
        -- rewrite append_cons in Hs'. injection Hs' as -> Hs'.
           simpl in Hlen'. subst j'. apply le_n_S, Hmin. by exists pre', post'.
Qed.

Lemma find_from_none k s p : Str.find_from k s p = None -> ~ occurs p s.
Proof.
  revert k. induction s as [|c s IH]; intros k; cbn [Str.find_from].
  - destruct (String.prefix p "") eqn:Hpre; [done|]. intros _ (j & pre & post & Hs & _).
    destruct pre; [|discriminate].
    assert (String.prefix p "" = true) as Habs; [|congruence].
    apply prefix_true. by exists post.
  - destruct (String.prefix p (String.String c s)) eqn:Hpre; [done|].
    intros Hfind (j & pre & post & Hs & _). destruct pre as [|d pre].
    + assert (String.prefix p (String.String c s) = true) as Habs; [|congruence].
      apply prefix_true. by exists post.
    + rewrite append_cons in Hs. injection Hs as -> Hs.
      apply (IH _ Hfind). by exists (String.length pre), pre, post.
Qed.

(** *** Decimal numerals: [std::to_string] read back by [std::stoi] *)

Lemma digit_of_pretty_char d : (d < 10)%N -> Str.digit_of (pretty_N_char d) = Some d.
Proof.
  intros Hd.
  assert (d = 0 \/ d = 1 \/ d = 2 \/ d = 3 \/ d = 4 \/ d = 5 \/ d = 6
          \/ d = 7 \/ d = 8 \/ d = 9)%N as Hcases by lia.
  repeat (destruct Hcases as [->|Hcases]; [reflexivity|]). by subst.
Qed.

Lemma digits_pretty_go x : forall s, Str.digits (pretty_N_go x s) 0 = Str.digits s x.
Proof.
  induction (N.lt_wf_0 x) as [x _ IH]. intros s.
  destruct (decide (x = 0)%N) as [->|Hx]; [by rewrite pretty_N_go_0|].
  rewrite pretty_N_go_step by lia.
  rewrite IH by (apply N.div_lt; lia).
  cbn [Str.digits]. rewrite digit_of_pretty_char by (apply N.mod_lt; lia).
  f_equal. symmetry. by apply N.div_mod.
Qed.

Lemma pretty_go_head x : forall s,
  (0 < x)%N -> exists c r d, pretty_N_go x s = String.String c r /\ Str.digit_of c = Some d.
Proof.
  induction (N.lt_wf_0 x) as [x _ IH]. intros s Hx.
  rewrite pretty_N_go_step by done.
  destruct (decide (x `div` 10 = 0)%N) as [Hq|Hq].
  - rewrite Hq, pretty_N_go_0. eexists _, _, _. split; [done|].
    apply digit_of_pretty_char, N.mod_lt. lia.
  - apply IH; [apply N.div_lt; [done | reflexivity] | by apply N.neq_0_lt_0].
Qed.

Lemma stoi_digit_head c r d :
  Str.digit_of c = Some d ->
  Str.stoi (String.String c r)
  = (let v := Z.of_N (Str.digits (String.String c r) 0) in
     if ((Str.INT_MIN <=? v) && (v <=? Str.INT_MAX))%Z then Some v else None).
Proof.
  intros H. destruct c as [[] [] [] [] [] [] [] []]; cbv in H; try discriminate H.
  all: reflexivity.
Qed.

Lemma stoi_pretty_N (n : N) :
  (Z.of_N n <= Str.INT_MAX)%Z -> Str.stoi (pretty n) = Some (Z.of_N n).
Proof.
  intros Hmax. unfold pretty, pretty_N. case_decide as Hn; [by subst|].
  destruct (pretty_go_head n "") as (c & r & d & Hhead & Hd); [lia|].
  pose proof (digits_pretty_go n "") as Hval. rewrite Hhead in Hval |- *.
  rewrite (stoi_digit_head _ _ _ Hd), Hval. cbn [Str.digits]. cbv zeta.
  unfold Str.INT_MIN, Str.INT_MAX in *.
  rewrite andb_true_intro; [done|]. split; apply Z.leb_le; lia.
Qed.

Lemma pretty_Z_nonneg (z : Z) : (0 <= z)%Z -> pretty z = pretty (Z.to_N z).
Proof. destruct z; [done | done | lia]. Qed.

Lemma stoi_pretty_Z (z : Z) :
  (0 <= z <= Str.INT_MAX)%Z -> Str.stoi (pretty z) = Some z.
Proof.
  intros [H0 Hmax]. rewrite pretty_Z_nonneg by done.
  rewrite stoi_pretty_N; rewrite Z2N.id; done.
Qed.

Lemma stoi_to_string (i : nat) :
  (Z.of_nat i <= Str.INT_MAX)%Z -> Str.stoi (Str.to_string i) = Some (Z.of_nat i).
Proof.
  intros Hmax. unfold Str.to_string. rewrite stoi_pretty_N; rewrite nat_N_Z; done.
Qed.

Lemma to_string_not_empty i : Str.to_string i <> "".
Proof.
  unfold Str.to_string, pretty, pretty_N. case_decide as Hn; [done|].
  destruct (pretty_go_head (N.of_nat i) "") as (c & r & d & -> & _); [lia | done].
Qed.

Lemma wrap_int_small z :
  (Str.INT_MIN <= z <= Str.INT_MAX)%Z -> Str.wrap_int z = z.
Proof.
  unfold Str.INT_MIN, Str.INT_MAX, Str.wrap_int. intros Hz.
  rewrite Z.mod_small; lia.
Qed.

(** *** [std::string::substr] on an occurrence *)

Lemma substring_prefix p post :
  String.substring 0 (String.length p) (p +:+ post) = p.
Proof.
  induction p as [|c p IH].
  - by destruct post.
  - rewrite append_cons. simpl. by f_equal.
Qed.

Lemma substring_occurrence pre p post :
  String.substring (String.length pre) (String.length p) (pre +:+ p +:+ post) = p.
Proof.
  induction pre as [|c pre IH]; [exact (substring_prefix p post)|].
  rewrite append_cons. simpl. apply IH.
Qed.

(** ** Frame rules of the monad *)

Section Keeps.
Variable P : State -> State -> Prop.
Hypothesis P_refl : forall s, P s s.
Hypothesis P_trans : forall s1 s2 s3, P s1 s2 -> P s2 s3 -> P s1 s3.

Lemma keeps_ret {A} (a : A) : keeps P (ret a).
Proof. intros s. apply P_refl. Qed.

Lemma keeps_throw {A} pos msg : keeps P (@throw A pos msg).
Proof. intros s. apply P_refl. Qed.

Lemma keeps_fail {A} f : keeps P (@fail A f).
Proof. intros s. apply P_refl. Qed.

Lemma keeps_get {A} (f : State -> A) : keeps P (get f).
Proof. intros s. apply P_refl. Qed.

Lemma keeps_const {A} (r : Res A) : keeps P (fun s => (s, r)).
Proof. intros s. apply P_refl. Qed.

Lemma keeps_node_at id : keeps P (node_at id).
Proof. intros s. unfold node_at. destruct (tree s !! id); apply P_refl. Qed.

Lemma keeps_scope_at a : keeps P (scope_at a).
Proof. intros s. unfold scope_at. destruct (scopes s !! a); apply P_refl. Qed.

Lemma keeps_bind {A B} (m : M A) (k : A -> M B) :
  keeps P m -> (forall a, keeps P (k a)) -> keeps P (bind m k).
Proof.
  intros Hm Hk s. unfold bind. specialize (Hm s).
  destruct (m s) as [s1 [a|e|f|]]; simpl in *; try assumption.
  eapply P_trans; [exact Hm | apply Hk].
Qed.

Lemma keeps_try_catch {A} (m : M A) h :
  keeps P m -> (forall e, keeps P (h e)) -> keeps P (try_catch m h).
Proof.
  intros Hm Hh s. unfold try_catch. specialize (Hm s).
  destruct (m s) as [s1 [a|e|f|]]; simpl in *; try assumption.
  eapply P_trans; [exact Hm | apply Hh].
Qed.

Lemma keeps_modify (f : State -> State) :
  (forall s, P s (f s)) -> keeps P (modify f).
Proof. intros Hf s. apply Hf. Qed.
End Keeps.

Lemma same_scopes_refl s : same_scopes s s.
Proof. reflexivity. Qed.

Lemma same_scopes_trans s1 s2 s3 :
  same_scopes s1 s2 -> same_scopes s2 s3 -> same_scopes s1 s3.
Proof. unfold same_scopes. congruence. Qed.

Lemma same_below_refl e s : same_below e s s.
Proof. split; reflexivity. Qed.

Lemma same_below_trans e s1 s2 s3 :
  same_below e s1 s2 -> same_below e s2 s3 -> same_below e s1 s3.
Proof. unfold same_below. intros [? ?] [? ?]. split; congruence. Qed.

Lemma same_scopes_below e s s' : same_scopes s s' -> same_below e s s'.
Proof. unfold same_scopes, same_below. intros ->. auto. Qed.

Lemma keeps_weaken {A} e (m : M A) : keeps same_scopes m -> keeps (same_below e) m.
Proof. intros H s. apply same_scopes_below, H. Qed.

Lemma keeps_scope_write e m : keeps (same_below e) (scope_write e m).
Proof.
  intros s. unfold scope_write, modify, same_below. simpl.
  rewrite length_insert. split; [|done].
  apply take_insert_ge. lia.
Qed.

Global Hint Resolve same_scopes_refl same_below_refl : keeps.
Global Hint Resolve keeps_ret keeps_throw keeps_fail keeps_get keeps_const
  keeps_node_at keeps_scope_at : keeps.

Lemma keeps_with_scope {A} init (k : nat -> M A) :
  (forall e, keeps (same_below e) (k e)) -> keeps same_scopes (with_scope init k).
Proof.
  intros Hk s. unfold with_scope.
  specialize (Hk (length (scopes s)) (set_scopes (scopes s ++ [init]) s)).
  destruct (k _ _) as [s' r]. destruct Hk as [Htake _]. simpl in *.
  unfold same_scopes. simpl. rewrite Htake. by rewrite take_app_length.
Qed.

(** One step on a [keeps] goal: split a [bind], decide a leaf, or open the
    [match] the computation branches on. *)
Ltac keeps_step P_trans :=
  match goal with
  | |- keeps _ (bind _ _) => apply (keeps_bind _ P_trans); [| intros ?]
  | |- keeps _ (try_catch _ _) => apply (keeps_try_catch _ P_trans); [| intros ?]
  | |- keeps _ (modify _) => apply keeps_modify; intros ?; first [exact eq_refl | split; exact eq_refl]
  | |- keeps _ _ => solve [eauto with keeps]
  | |- keeps _ (match ?x with _ => _ end) => destruct x
  end.

Ltac keeps_scopes := repeat keeps_step same_scopes_trans.
Ltac keeps_below e := repeat keeps_step (same_below_trans e).

Section Frame.
Variable X : Extern.
Variable ev : node_t -> option nat -> M string.
Hypothesis ev_keeps : forall node args, keeps same_scopes (ev node args).

Local Hint Resolve ev_keeps : keeps.

Lemma keeps_warn pos msg : keeps same_scopes (warn pos msg).
Proof. unfold warn. keeps_scopes. Qed.

Lemma keeps_log text : keeps same_scopes (log text).
Proof. unfold log. keeps_scopes. Qed.

Lemma keeps_enabled flag : keeps same_scopes (enabled flag).
Proof. unfold enabled. keeps_scopes. Qed.

Lemma keeps_replace id v : keeps same_scopes (replace id v).
Proof. intros s. unfold replace. case_decide; reflexivity. Qed.

Lemma keeps_trim_newline str : keeps same_scopes (trim_newline str).
Proof. unfold trim_newline. keeps_scopes. Qed.

Lemma keeps_slice str a b pos : keeps same_scopes (slice str a b pos).
Proof. unfold slice, int_add, int_sub. keeps_scopes. Qed.

Local Hint Resolve keeps_warn keeps_log keeps_enabled keeps_replace
  keeps_trim_newline keeps_slice : keeps.

Lemma keeps_eval_stmts stmts args str :
  keeps same_scopes (eval_stmts ev stmts args str).
Proof. revert str. induction stmts as [|node rest IH]; intros str; simpl; keeps_scopes. Qed.

Lemma keeps_find_if t cases args : keeps same_scopes (find_if ev t cases args).
Proof. induction cases as [|elem rest IH]; simpl; keeps_scopes. Qed.

Local Hint Resolve keeps_eval_stmts keeps_find_if : keeps.

Lemma keeps_pre_exprs id : keeps same_scopes (pre_exprs id).
Proof. unfold pre_exprs. keeps_scopes. Qed.

Local Hint Resolve keeps_pre_exprs : keeps.

Lemma keeps_pre_stmt id stmt args : keeps same_scopes (pre_stmt ev id stmt args).
Proof. unfold pre_stmt. keeps_scopes. Qed.

Local Hint Resolve keeps_pre_stmt : keeps.

Lemma keeps_pre_stmts id stmts args str :
  keeps same_scopes (pre_stmts ev id stmts args str).
Proof. revert str. induction stmts as [|stmt rest IH]; intros str; simpl; keeps_scopes. Qed.

Lemma keeps_bind_args e callee_name callee_pos params caller_args i args :
  keeps (same_below e) (bind_args ev e callee_name callee_pos params caller_args i args).
Proof.
  revert i. induction caller_args as [|arg rest IH]; intros i; simpl.
  - keeps_below e.
  - pose proof (fun n a => keeps_weaken e _ (ev_keeps n a)) as Hev.
    pose proof (keeps_scope_write e) as Hw.
    pose proof (fun f => keeps_weaken e _ (keeps_enabled f)) as Hen.
    pose proof (fun p m => keeps_weaken e _ (keeps_warn p m)) as Hwarn.
    keeps_below e.
Qed.

Lemma keeps_visit node_id variant args :
  keeps same_scopes (visit X ev node_id variant args).
Proof.
  pose proof keeps_pre_stmts. pose proof keeps_bind_args.
  destruct variant; simpl;
    unfold visit_intrinsic, visit_fn_invoke, visit_fn, visit_var, visit_drop,
      visit_map, intrinsic_assert, intrinsic_error, intrinsic_file,
      intrinsic_source, intrinsic_log, intrinsic_escape, intrinsic_slice,
      intrinsic_find, intrinsic_length, intrinsic_eval, intrinsic_run,
      intrinsic_pipe.
  all: keeps_scopes.
  all: apply keeps_with_scope; intros e.
  all: apply (keeps_bind _ (same_below_trans e));
    [apply keeps_bind_args | intros _; apply keeps_weaken, ev_keeps].
Qed.
End Frame.

Lemma keeps_eval_ast X fuel :
  forall node_id args, keeps same_scopes (eval_ast X fuel node_id args).
Proof.
  induction fuel as [|fuel IH]; intros node_id args; simpl.
  - apply keeps_const, same_scopes_refl.
  - apply (keeps_bind _ same_scopes_trans); [apply keeps_node_at, same_scopes_refl|].
    intros variant. by apply keeps_visit.
Qed.

(** ** Calls and variables *)

Section Calls.
Variable ev : node_t -> option nat -> M string.

(** A call whose name is no parameter of the caller and whose key holds a
    definition: the callee runs on a new [Arguments] object that starts as
    a copy of the caller's. *)
Lemma fn_invoke_resolved name cargs cpos a s m stack top callee params body fpos :
  scopes s !! a = Some m ->
  m !! name = None ->
  functions s !! cat name (length cargs) = Some stack ->
  last stack = Some top ->
  tree s !! top = Some (wpp.Fn callee params body fpos) ->
  visit_fn_invoke ev name cargs cpos (Some a) s
  = with_scope m (fun e =>
      bind_args ev e callee fpos params cargs 0 (Some a);;;
      ev body (Some e)) s.
Proof.
  intros Hm Hname Hstack Htop Hfn. unfold visit_fn_invoke.
  assert (Hhit : (m0 <- scope_at a;; ret (m0 !! name)) s = (s, Ok None)).
  { rewrite (bind_ok _ _ _ _ _ (scope_at_ok _ _ _ Hm)). unfold ret. by rewrite Hname. }
  rewrite (bind_ok _ _ _ _ _ Hhit).
  unfold bind at 1, get at 1. rewrite Hstack, Htop.
  rewrite (bind_ok _ _ _ _ _ (node_at_ok _ _ _ Hfn)).
  by rewrite (bind_ok _ _ _ _ _ (scope_at_ok _ _ _ Hm)).
Qed.

(** One round of the argument loop for a parameter the callee's object does
    not hold yet: the argument is evaluated for [result], evaluated again,
    and the second value is bound. *)
Lemma bind_args_new_param e callee fpos params arg rest i args p s s1 v1 m s2 v2 m2 :
  ev arg args s = (s1, Ok v1) ->
  params !! i = Some p ->
  scopes s1 !! e = Some m ->
  m !! p = None ->
  ev arg args s1 = (s2, Ok v2) ->
  scopes s2 !! e = Some m2 ->
  bind_args ev e callee fpos params (arg :: rest) i args s
  = bind_args ev e callee fpos params rest (S i) args
      (set_scopes (<[e := <[p := v2]> m2]> (scopes s2)) s2).
Proof.
  intros Hv1 Hp Hm Hnew Hv2 Hm2. cbn [bind_args].
  rewrite (bind_ok _ _ _ _ _ Hv1), Hp.
  unfold bind at 1. unfold bind at 1. rewrite (scope_at_ok _ _ _ Hm), Hnew.
  unfold bind at 1. rewrite Hv2.
  unfold bind at 1. by rewrite (scope_at_ok _ _ _ Hm2).
Qed.

(** One round for a parameter inherited from the caller: the argument is
    evaluated once and its value overwrites the inherited entry. *)
Lemma bind_args_inherited_param e callee fpos params arg rest i args p s s1 v1 m old :
  ev arg args s = (s1, Ok v1) ->
  params !! i = Some p ->
  scopes s1 !! e = Some m ->
  m !! p = Some old ->
  exists c,
    bind_args ev e callee fpos params (arg :: rest) i args s
    = bind_args ev e callee fpos params rest (S i) args
        (set_scopes (<[e := <[p := v1]> m]> (scopes s1)) (set_cerr c s1)).
Proof.
  intros Hv1 Hp Hm Hold. cbn [bind_args].
  rewrite (bind_ok _ _ _ _ _ Hv1), Hp.
  unfold bind at 1. unfold bind at 1. rewrite (scope_at_ok _ _ _ Hm), Hold.
  unfold bind at 1. unfold bind at 1. unfold enabled, get.
  destruct (negb _).
  - eexists. unfold warn, modify. reflexivity.
  - exists (cerr s1). unfold ret, scope_write, modify. by destruct s1.
Qed.

(** The [Var] lambda on a body that returns [v]. *)
Lemma visit_var_ok node_id name body pos args s s1 v :
  ev body args s = (s1, Ok v) ->
  body < length (tree s1) ->
  node_id < length (tree s1) ->
  node_id <> body ->
  let r := visit_var ev node_id name body pos args s in
  r.2 = Ok ""
  /\ tree r.1 !! body = Some (wpp.String v pos)
  /\ tree r.1 !! node_id = Some (wpp.Fn (cat name 0) [] body pos)
  /\ functions r.1 = define (cat name 0) node_id (functions s1).
Proof.
  intros Hbody Hb Hn Hne. unfold visit_var.
  rewrite (bind_ok _ _ _ _ _ Hbody).
  rewrite (bind_ok _ _ _ _ _ (replace_ok _ _ _ Hb)).
  erewrite bind_ok; [|apply replace_ok; simpl; by rewrite length_insert].
  unfold bind, get, enabled, warn, modify, ret. cbn [tree set_tree functions].
  assert (Hlook : forall t : AST,
    t = <[node_id := wpp.Fn (cat name 0) [] body pos]>
          (<[body := wpp.String v pos]> (tree s1)) ->
    t !! body = Some (wpp.String v pos)
    /\ t !! node_id = Some (wpp.Fn (cat name 0) [] body pos)).
  { intros t ->. split.
    - rewrite list_lookup_insert_ne by done. by apply list_lookup_insert_eq.
    - apply list_lookup_insert_eq. by rewrite length_insert. }
  destruct (Hlook _ eq_refl) as [Hb' Hn'].
  case_bool_decide; simpl; [|done].
  by destruct (negb (N.land _ _ =? 0)%N).
Qed.
End Calls.

(** ** The scope a callee works on *)

Lemma scope_write_ok e m s :
  scope_write e m s = (set_scopes (<[e := m]> (scopes s)) s, Ok tt).
Proof. reflexivity. Qed.

(** The argument loop writes parameters only: when it returns, the callee's
    object at [e] still answers every other name as it did before. *)
Lemma bind_args_inherits ev e callee_name callee_pos params args :
  (forall node a, keeps same_scopes (ev node a)) ->
  forall caller_args i s s1 m,
    scopes s !! e = Some m ->
    bind_args ev e callee_name callee_pos params caller_args i args s = (s1, Ok tt) ->
    exists m1, scopes s1 !! e = Some m1 /\ forall q, q ∉ params -> m1 !! q = m !! q.
Proof.
  intros Hev. induction caller_args as [|arg rest IH]; intros i s s1 m Hm Hrun.
  - injection Hrun as <-. by exists m.
  - cbn [bind_args] in Hrun. unfold bind at 1 in Hrun. unfold bind at 1 in Hrun.
    pose proof (Hev arg args s) as Hsame.
    destruct (ev arg args s) as [sa [v| | |]]; try discriminate Hrun.
    unfold same_scopes in Hsame. simpl in Hsame.
    destruct (params !! i) as [p|] eqn:Hp; [|discriminate Hrun].
    assert (Hin : p ∈ params) by (by eapply list_elem_of_lookup_2).
    assert (Hma : scopes sa !! e = Some m) by (by rewrite Hsame).
    unfold bind at 1 in Hrun. rewrite (scope_at_ok _ _ _ Hma) in Hrun.
    assert (Hstep : forall (w : string) (sb : State), scopes sb = scopes sa ->
      bind_args ev e callee_name callee_pos params rest (S i) args
        (set_scopes (<[e := <[p := w]> m]> (scopes sb)) sb) = (s1, Ok tt) ->
      exists m1, scopes s1 !! e = Some m1 /\ forall q, q ∉ params -> m1 !! q = m !! q).
    { intros w sb Hsb Hrest.
      destruct (IH (S i) (set_scopes (<[e := <[p := w]> m]> (scopes sb)) sb) s1 (<[p := w]> m))
        as (m1 & Hm1 & Hagree); [|done|].
      - simpl. apply list_lookup_insert_eq. rewrite Hsb. by eapply lookup_lt_Some.
      - exists m1. split; [done|]. intros q Hq. rewrite Hagree by done.
        apply lookup_insert_ne. by intros ->. }
    destruct (m !! p) as [old|].
    + unfold bind, enabled, get in Hrun.
      destruct (negb _); simpl in Hrun.
      * by eapply (Hstep v (set_cerr _ sa)).
      * by apply (Hstep v sa).
    + unfold bind in Hrun.
      pose proof (Hev arg args sa) as Hsame2.
      destruct (ev arg args sa) as [sb [w| | |]]; try discriminate Hrun.
      unfold same_scopes in Hsame2. simpl in Hsame2.
      assert (Hmb : scopes sb !! e = Some m) by (by rewrite Hsame2).
      rewrite (scope_at_ok _ _ _ Hmb) in Hrun.
      by apply (Hstep w sb).
Qed.

(** C5.  Part one: whatever node is evaluated, in particular every
    [FnInvoke], and whatever the outcome, the [Arguments] objects of the
    live frames, the caller's scope among them, are after the evaluation
    what they were before it.  Part two, for a call from a scope [m] at
    address [a] that resolves to a function: the callee's object is created
    at the new address [e], different from every live one, and starts as a
    copy of [m]; the call is the argument loop and then the body, both run
    with that copy in place and the body with its address, after which the
    copy is released; the loop leaves every object below [e] as it was and,
    when it returns, the copy still answers every name that is no
    parameter of the callee as [m] does; and after the call the scopes are
    what they were: no binding inserted or overwritten in the copy reaches
    the caller's scope. *)
Theorem caller_scope_unchanged X fuel :
  (forall node_id args s, scopes (eval_ast X fuel node_id args s).1 = scopes s)
  /\ forall call name cargs cpos a s m stack top callee params body fpos,
       tree s !! call = Some (wpp.FnInvoke name cargs cpos) ->
       scopes s !! a = Some m ->
       m !! name = None ->
       functions s !! cat name (length cargs) = Some stack ->
       last stack = Some top ->
       tree s !! top = Some (wpp.Fn callee params body fpos) ->
       let e := length (scopes s) in
       let s0 := set_scopes (scopes s ++ [m]) s in
       let loop := bind_args (eval_ast X fuel) e callee fpos params cargs 0 (Some a) in
       (a < e /\ scopes s0 !! e = Some m /\ scopes s0 !! a = Some m)
       /\ eval_ast X (S fuel) call (Some a) s
          = (let '(s2, r) := (loop;;; eval_ast X fuel body (Some e)) s0 in
             (set_scopes (take e (scopes s2)) s2, r))
       /\ take e (scopes (loop s0).1) = scopes s
       /\ ((loop s0).2 = Ok tt ->
           exists m1, scopes (loop s0).1 !! e = Some m1
                      /\ forall q, q ∉ params -> m1 !! q = m !! q)
       /\ scopes (eval_ast X (S fuel) call (Some a) s).1 = scopes s.
Proof.
  split; [intros node_id args s; apply keeps_eval_ast|].
  intros call name cargs cpos a s m stack top callee params body fpos
    Hcall Hm Hname Hstack Htop Hfn e s0 loop.
  assert (Hlt : a < e) by (by eapply lookup_lt_Some).
  assert (He : scopes s0 !! e = Some m).
  { simpl. rewrite lookup_app_r by done. by rewrite Nat.sub_diag. }
  split; [|split; [|split; [|split]]].
  - split; [done|]. split; [done|]. simpl. by rewrite lookup_app_l.
  - rewrite (eval_ast_visit _ _ _ _ _ _ Hcall). simpl.
    by rewrite (fn_invoke_resolved _ _ _ _ _ _ _ _ _ _ _ _ _ Hm Hname Hstack Htop Hfn).
  - pose proof (keeps_bind_args (eval_ast X fuel) (keeps_eval_ast X fuel)
                  e callee fpos params cargs 0 (Some a) s0) as [Htake _].
    fold loop in Htake. rewrite Htake. unfold e, s0. simpl. apply take_app_length.
  - intros Hok. destruct (loop s0) as [s1 r] eqn:Hloop. simpl in Hok. subst r.
    by apply (bind_args_inherits _ _ _ _ _ _ (keeps_eval_ast X fuel) _ _ _ _ _ He Hloop).
  - apply keeps_eval_ast.
Qed.

(** ** The loops of [Block], [Document] and [Map] *)

Section Loops.
Variable ev : node_t -> option nat -> M string.

Lemma eval_stmts_run args stmts s outs s1 :
  stmts_run ev args stmts s outs s1 ->
  forall str, eval_stmts ev stmts args str s = (s1, Ok (str +:+ concat_all outs)).
Proof.
  induction 1 as [s|node rest s out s1 outs s2 Hev _ IH]; intros str; simpl.
  - by rewrite append_empty_r.
  - rewrite (bind_ok _ _ _ _ _ Hev), IH. by rewrite append_assoc.
Qed.

Lemma eval_stmts_ok args stmts :
  forall str s s1 out,
    eval_stmts ev stmts args str s = (s1, Ok out) ->
    exists outs, stmts_run ev args stmts s outs s1 /\ out = str +:+ concat_all outs.
Proof.
  induction stmts as [|node rest IH]; intros str s s1 out; simpl.
  - intros [= -> <-]. exists []. split; [constructor | by rewrite append_empty_r].
  - unfold bind at 1. destruct (ev node args s) as [s' [r|e|f|]] eqn:Hev; try discriminate.
    intros Hrest. apply IH in Hrest as (outs & Hrun & ->).
    exists (r :: outs). split; [by econstructor | by rewrite append_assoc].
Qed.

Lemma find_if_mismatch args t before s1 s2 :
  arms_mismatch ev args t before s1 s2 ->
  forall rest, find_if ev t (before ++ rest) args s1 = find_if ev t rest args s2.
Proof.
  induction 1 as [s|pattern body tl s v s1 s2 Hev Hne _ IH]; intros rest; simpl.
  - done.
  - rewrite (bind_ok _ _ _ _ _ Hev).
    destruct (String.eqb_spec t v) as [->|_]; [done | apply IH].
Qed.
End Loops.

(** C6.  A [Map] node whose test expression evaluates to [t]: the test is
    evaluated once, from the state the node is entered in; the patterns are
    then evaluated in declared order, each from the state its predecessor
    left, and compared with [t].  When the patterns of the arms [before]
    all differ from [t] and the next pattern equals it, the node evaluates
    to the body of that arm, evaluated in the state right after the
    matching pattern: no later pattern is evaluated.  When every pattern
    differs from [t], the node evaluates to the default, and throws
    "no matches found." when the default is the sentinel [NODE_EMPTY]. *)
Theorem map_first_match X n node_id test cases default_case pos args s s1 t :
  tree s !! node_id = Some (wpp.Map test cases default_case pos) ->
  eval_ast X n test args s = (s1, Ok t) ->
  (forall before pattern body after s2 s3,
      cases = before ++ (pattern, body) :: after ->
      arms_mismatch (eval_ast X n) args t before s1 s2 ->
      eval_ast X n pattern args s2 = (s3, Ok t) ->
      eval_ast X (S n) node_id args s = eval_ast X n body args s3)
  /\ (forall s2,
      arms_mismatch (eval_ast X n) args t cases s1 s2 ->
      eval_ast X (S n) node_id args s =
        if decide (default_case = NODE_EMPTY X)
        then (s2, Throw {| exc_pos := pos; what := "no matches found." |})
        else eval_ast X n default_case args s2).
Proof.
  intros Hnode Htest. rewrite (eval_ast_visit _ _ _ _ _ _ Hnode). simpl.
  unfold visit_map. rewrite (bind_ok _ _ _ _ _ Htest). split.
  - intros before pattern body after s2 s3 -> Hmis Hpat.
    unfold bind at 1. rewrite (find_if_mismatch _ _ _ _ _ _ Hmis). simpl.
    rewrite (bind_ok _ _ _ _ _ Hpat). by rewrite String.eqb_refl.
  - intros s2 Hmis. unfold bind at 1.
    rewrite <- (app_nil_r cases), (find_if_mismatch _ _ _ _ _ _ Hmis). simpl.
    by case_decide.
Qed.

(** C7.  A [Block] node whose statements run one after the other, from the
    state the node is entered in to [s1], returning the strings [outs]:
    the node evaluates to the trailing expression evaluated in [s1], the
    state that holds the effects of all statements, and [outs] is no part
    of the result. *)
Theorem block_returns_trailing X n node_id stmts expr pos args s outs s1 :
  tree s !! node_id = Some (wpp.Block stmts expr pos) ->
  stmts_run (eval_ast X n) args stmts s outs s1 ->
  eval_ast X (S n) node_id args s = eval_ast X n expr args s1.
Proof.
  intros Hnode Hrun. rewrite (eval_ast_visit _ _ _ _ _ _ Hnode). simpl.
  by rewrite (bind_ok _ _ _ _ _ (eval_stmts_run _ _ _ _ _ _ Hrun "")).
Qed.

(** ** [Pre] without prefix against [Block] *)

Lemma pre_stmt_without_prefix X n p pstmts ppos stmt args s :
  tree s !! p = Some (wpp.Pre [] pstmts ppos) ->
  pre_stmt (eval_ast X (S n)) p stmt args s = eval_ast X (S n) stmt args s.
Proof.
  intros Hp.
  assert (Hexprs : pre_exprs p s = (s, Ok [])).
  { unfold pre_exprs. by rewrite (bind_ok _ _ _ _ _ (node_at_ok _ _ _ Hp)). }
  unfold pre_stmt. destruct (tree s !! stmt) as [target|] eqn:Hstmt.
  - rewrite (bind_ok _ _ _ _ _ (node_at_ok _ _ _ Hstmt)).
    destruct target; try reflexivity.
    + rewrite (bind_ok _ _ _ _ _ Hexprs). cbn [rev eval_stmts]. rewrite bind_ret.
      rewrite (bind_ok _ _ _ _ _ (node_at_ok _ _ _ Hstmt)).
      change ("" +:+ identifier) with identifier.
      by rewrite (bind_ok _ _ _ _ _ (replace_same _ _ _ Hstmt)).
    + rewrite (bind_ok _ _ _ _ _ Hexprs), app_nil_r.
      by rewrite (bind_ok _ _ _ _ _ (replace_same _ _ _ Hstmt)).
  - rewrite eval_ast_bad_node by done. unfold bind, node_at. by rewrite Hstmt.
Qed.

Lemma pre_stmts_without_prefix X n p stmts args :
  forall str s,
    prefix_stays_empty (eval_ast X (S n)) p stmts args s = true ->
    pre_stmts (eval_ast X (S n)) p stmts args str s
    = eval_stmts (eval_ast X (S n)) stmts args str s.
Proof.
  induction stmts as [|stmt rest IH]; intros str s Hstay; [done|].
  cbn [prefix_stays_empty] in Hstay. cbn [pre_stmts eval_stmts].
  destruct (tree s !! p) as [[| | | | | | | | | |[|] pstmts ppos|]|] eqn:Hp; try discriminate.
  unfold bind. rewrite (pre_stmt_without_prefix _ _ _ _ _ _ _ _ Hp).
  destruct (eval_ast X (S n) stmt args s) as [s' [r|e|f|]]; try reflexivity.
  by apply IH.
Qed.

(** C8, amended.  A [Pre] node with an empty prefix list and a [Block] node
    with the same statements, evaluated from the same state, as long as no
    statement extends the prefix list of the [Pre] node on the way: both
    leave the same state, and when a statement fails both fail alike; when
    all statements return, the [Pre] returns the concatenation of their
    strings, whereas the [Block] returns the value of its trailing
    expression, the empty string for an empty literal.  The returned
    strings agree when the statements return nothing but empty strings. *)
Theorem pre_without_prefix_vs_block X n p b e stmts ppos bpos args s :
  tree s !! p = Some (wpp.Pre [] stmts ppos) ->
  tree s !! b = Some (wpp.Block stmts e bpos) ->
  prefix_stays_empty (eval_ast X (S n)) p stmts args s = true ->
  match eval_ast X (S (S n)) p args s with
  | (s1, Ok out) =>
      (exists outs, stmts_run (eval_ast X (S n)) args stmts s outs s1
                    /\ out = concat_all outs)
      /\ (forall epos, tree s1 !! e = Some (wpp.String "" epos) ->
            eval_ast X (S (S n)) b args s = (s1, Ok ""))
  | (s1, failure) => eval_ast X (S (S n)) b args s = (s1, failure)
  end.
Proof.
  intros Hp Hb Hstay.
  rewrite (eval_ast_visit _ _ _ _ _ _ Hp), (eval_ast_visit _ _ _ _ _ _ Hb).
  cbn [visit]. rewrite (pre_stmts_without_prefix _ _ _ _ _ _ _ Hstay).
  unfold bind.
  destruct (eval_stmts _ stmts args "" s) as [s1 [out|ex|f|]] eqn:Hrun; try reflexivity.
  split.
  - apply eval_stmts_ok in Hrun as (outs & Hruns & ->). by exists outs.
  - intros epos He. by rewrite (eval_ast_visit _ _ _ _ _ _ He).
Qed.

(** ** The function table *)

Lemma height_define key node_id (fs : gmap string (list node_t)) :
  height key (define key node_id fs) = S (height key fs).
Proof.
  unfold height, define. destruct (fs !! key) as [stack|] eqn:Hk;
    rewrite lookup_insert_eq; [|done].
  rewrite length_app. simpl. lia.
Qed.

Lemma define_present key node_id (fs : gmap string (list node_t)) :
  is_Some (define key node_id fs !! key).
Proof. unfold define. destruct (fs !! key); rewrite lookup_insert_eq; eauto. Qed.

Lemma define_other key node_id (fs : gmap string (list node_t)) k :
  k <> key -> define key node_id fs !! k = fs !! k.
Proof. intros Hne. unfold define. destruct (fs !! key); by rewrite lookup_insert_ne. Qed.

Lemma drop_pops key (fs : gmap string (list node_t)) h :
  height key fs = S h ->
  exists fs', drop key fs = Some fs' /\ height key fs' = h
              /\ is_Some (fs' !! key) /\ forall k, k <> key -> fs' !! k = fs !! k.
Proof.
  unfold height, drop. destruct (fs !! key) as [[|x stack]|] eqn:Hk; try discriminate.
  intros [= Hlen]. eexists. split; [done|]. rewrite lookup_insert_eq.
  split; [|split; [eauto|]].
  - destruct (exists_last (l := x :: stack)) as (front & y & Heq); [done|].
    rewrite Heq, removelast_last. apply (f_equal length) in Heq.
    rewrite length_app in Heq. simpl in Heq. lia.
  - intros k Hne. by rewrite lookup_insert_ne.
Qed.

Lemma drop_empty_stack key (fs : gmap string (list node_t)) :
  fs !! key = Some [] -> drop key fs = Some (delete key fs).
Proof. intros H. unfold drop. by rewrite H. Qed.

Lemma drop_absent key (fs : gmap string (list node_t)) :
  fs !! key = None -> drop key fs = None.
Proof. intros H. unfold drop. by rewrite H. Qed.

Lemma apply_ops_heights key ops :
  forall fs : gmap string (list node_t),
    pops_only (height key fs) ops = true ->
    exists fs', apply_ops key ops fs = Some fs'
      /\ height key fs' + drops ops = height key fs + defines ops
      /\ (is_Some (fs !! key) \/ 0 < defines ops -> is_Some (fs' !! key))
      /\ forall k, k <> key -> fs' !! k = fs !! k.
Proof.
  induction ops as [|[node_id|] rest IH]; intros fs Hpops; simpl in *.
  - exists fs. split; [done|]. split; [lia|]. split; [|done].
    intros [?|?]; [done | lia].
  - rewrite <- height_define with (node_id := node_id) in Hpops.
    destruct (IH _ Hpops) as (fs' & Hrun & Hh & Hpresent & Hother).
    exists fs'. split; [done|]. rewrite height_define in Hh.
    split; [lia|]. split.
    + intros _. apply Hpresent. left. apply define_present.
    + intros k Hne. rewrite Hother by done. by apply define_other.
  - destruct (height key fs) as [|h] eqn:Hheight; [discriminate|].
    destruct (drop_pops _ _ _ Hheight) as (fs1 & -> & Hh1 & Hp1 & Ho1).
    rewrite <- Hh1 in Hpops.
    destruct (IH _ Hpops) as (fs' & Hrun & Hh & Hpresent & Hother).
    exists fs'. split; [done|]. split; [lia|]. split.
    + intros _. apply Hpresent. by left.
    + intros k Hne. rewrite Hother by done. by apply Ho1.
Qed.

(** The [Drop] lambda updates the table with [drop], and throws when [drop]
    finds no key. *)
Lemma eval_drop_drops X n node_id target pos name arguments ipos args s :
  tree s !! node_id = Some (wpp.Drop target pos) ->
  tree s !! target = Some (wpp.FnInvoke name arguments ipos) ->
  let r := eval_ast X (S n) node_id args s in
  match drop (cat name (length arguments)) (functions s) with
  | Some fs' => r = (set_functions fs' s, Ok "")
  | None => r.1 = s /\ exists e, r.2 = Throw e
  end.
Proof.
  intros Hnode Htarget. rewrite (eval_ast_visit _ _ _ _ _ _ Hnode). cbn [visit].
  unfold visit_drop. rewrite (bind_ok _ _ _ _ _ (node_at_ok _ _ _ Htarget)).
  unfold bind, get, modify, ret, throw.
  destruct (drop _ _); [done|]. split; [done | by eexists].
Qed.

(** The [Fn] lambda registers the node with [define] and returns the empty
    string; it may warn. *)
Lemma eval_fn_state X n node_id name params body pos args s :
  tree s !! node_id = Some (wpp.Fn name params body pos) ->
  exists c,
    eval_ast X (S n) node_id args s
    = (set_functions (define (cat name (length params)) node_id (functions s))
         (set_cerr c s), Ok "").
Proof.
  intros Hnode. rewrite (eval_ast_visit _ _ _ _ _ _ Hnode). cbn [visit].
  unfold visit_fn, bind, get, enabled, warn, modify, ret.
  case_bool_decide; simpl.
  - destruct (negb (N.land _ _ =? 0)%N); [by eexists|].
    exists (cerr s). by rewrite set_cerr_same.
  - exists (cerr s). by rewrite set_cerr_same.
Qed.

Lemma eval_stmt_op X n key stmt op args s fs' :
  stmt_op (tree s) key stmt = Some op ->
  apply_op key op (functions s) = Some fs' ->
  exists c, eval_ast X (S n) stmt args s = (set_functions fs' (set_cerr c s), Ok "").
Proof.
  unfold stmt_op. destruct (tree s !! stmt) as [[]|] eqn:Hstmt; try discriminate.
  - case_decide as Hkey; [|discriminate]. intros [= <-] [= <-].
    rewrite <- Hkey. by eapply eval_fn_state.
  - destruct (tree s !! func) as [[]|] eqn:Htarget; try discriminate.
    case_decide as Hkey; [|discriminate]. intros [= <-] Hdrop. simpl in Hdrop.
    pose proof (eval_drop_drops X n _ _ _ _ _ _ args _ Hstmt Htarget) as Hev.
    simpl in Hev. rewrite Hkey, Hdrop in Hev.
    exists (cerr s). by rewrite set_cerr_same.
Qed.

(** Statements that define or drop [key], evaluated in order, update the
    table as [apply_ops] does with their operations. *)
Lemma eval_stmts_table_ops X n key stmts :
  forall ops args str s fs',
    stmt_ops (tree s) key stmts = Some ops ->
    apply_ops key ops (functions s) = Some fs' ->
    exists c,
      eval_stmts (eval_ast X (S n)) stmts args str s
      = (set_functions fs' (set_cerr c s), Ok str).
Proof.
  induction stmts as [|stmt rest IH]; intros ops args str s fs'; cbn [stmt_ops eval_stmts].
  - intros [= <-] [= <-]. exists (cerr s). by destruct s.
  - destruct (stmt_op (tree s) key stmt) as [op|] eqn:Hop; [|discriminate].
    destruct (stmt_ops (tree s) key rest) as [ops'|] eqn:Hops; [|discriminate].
    intros [= <-]. cbn [apply_ops].
    destruct (apply_op key op (functions s)) as [fs1|] eqn:Hap; [|discriminate].
    intros Hrest.
    destruct (eval_stmt_op X n _ _ _ args _ _ Hop Hap) as [c Hev].
    rewrite (bind_ok _ _ _ _ _ Hev), append_empty_r.
    destruct (IH ops' args str (set_functions fs1 (set_cerr c s)) fs' Hops Hrest)
      as [c' Hev'].
    exists c'. by rewrite Hev'.
Qed.

(** The table update as it is written.  For a key of the function table
    and a sequence of define and [Drop] operations none of which meets an
    empty stack: the operations all succeed, the stack height of the key
    ends as defines minus drops above the height it started from, and
    other keys are left alone; but the key stays in the table once it is
    there, with an empty stack when the height is zero.  Only a [Drop]
    applied to that empty stack removes the key, and pops nothing; a
    [Drop] for a key that is not in the table fails. *)
Theorem function_table_heights key ops (fs : gmap string (list node_t)) :
  pops_only (height key fs) ops = true ->
  (exists fs', apply_ops key ops fs = Some fs'
      /\ height key fs' + drops ops = height key fs + defines ops
      /\ (is_Some (fs !! key) \/ 0 < defines ops -> is_Some (fs' !! key))
      /\ forall k, k <> key -> fs' !! k = fs !! k)
  /\ (forall fs0 : gmap string (list node_t),
        fs0 !! key = Some [] ->
        exists fs1, drop key fs0 = Some fs1 /\ fs1 !! key = None /\ height key fs1 = height key fs0)
  /\ (forall fs0 : gmap string (list node_t), fs0 !! key = None -> drop key fs0 = None).
Proof.
  intros Hpops. split; [by apply apply_ops_heights|]. split.
  - intros fs0 H0. exists (delete key fs0). split; [by apply drop_empty_stack|].
    unfold height. by rewrite lookup_delete_eq, H0.
  - apply drop_absent.
Qed.

(** Two definitions and two drops, from the empty table. *)
Lemma function_table_heights_witness :
  exists fs', apply_ops "f0" [OpDefine 1; OpDefine 7; OpDrop; OpDrop] ∅ = Some fs'
    /\ height "f0" fs' = 0 /\ is_Some (fs' !! "f0").
Proof.
  destruct (function_table_heights "f0" [OpDefine 1; OpDefine 7; OpDrop; OpDrop] ∅ eq_refl)
    as [(fs' & Hrun & Hh & Hpresent & _) _].
  exists fs'. split; [exact Hrun|]. split.
  - change (height "f0" ∅) with 0 in Hh. simpl in Hh. lia.
  - apply Hpresent. right. simpl. lia.
Defined.

(** ** [find] and [slice] *)

Lemma find_empty_iff s p : find s p = "" <-> ~ occurs p s.
Proof.
  unfold find, Str.find. destruct (Str.find_from 0 s p) as [i|] eqn:Hfind.
  - split; [intros H; by apply to_string_not_empty in H|].
    intros Hno. destruct Hno. apply find_from_some in Hfind as (j & _ & Hocc & _).
    by exists j.
  - split; [intros _; by eapply find_from_none | done].
Qed.

Lemma stoi_in_int s z : Str.stoi s = Some z -> (Str.INT_MIN <= z <= Str.INT_MAX)%Z.
Proof.
  unfold Str.stoi. destruct (match Str.skip_space s with
    | String.String "-"%char rest => (true, rest)
    | String.String "+"%char rest => (false, rest)
    | _ => (false, Str.skip_space s) end) as [negative s2].
  destruct s2 as [|c r]; [done|]. destruct (Str.digit_of c); [|done].
  destruct (_ && _) eqn:Hrange; [|done]. intros [= <-].
  apply andb_true_iff in Hrange as [H1 H2]. apply Z.leb_le in H1, H2. done.
Qed.

Lemma in_int_true z : (Str.INT_MIN <= z <= Str.INT_MAX)%Z -> in_int z = true.
Proof. intros [H1 H2]. unfold in_int. apply andb_true_iff. split; by apply Z.leb_le. Qed.

Lemma bind_assoc {A B C} (m : M A) (f : A -> M B) (g : B -> M C) s :
  bind (bind m f) g s = bind m (fun a => bind (f a) g) s.
Proof. unfold bind. destruct (m s) as [s1 [a|e|f0|]]; done. Qed.

Lemma bind_int_add {B} a b (k : Z -> M B) s :
  (Str.INT_MIN <= a + b <= Str.INT_MAX)%Z -> bind (int_add a b) k s = k (a + b)%Z s.
Proof. intros H. unfold int_add. by rewrite in_int_true. Qed.

Lemma bind_int_sub {B} a b (k : Z -> M B) s :
  (Str.INT_MIN <= a - b <= Str.INT_MAX)%Z -> bind (int_sub a b) k s = k (a - b)%Z s.
Proof. intros H. unfold int_sub. by rewrite in_int_true. Qed.

(** [slice] where no sum or difference leaves the range of [int]: [begin]
    and [last] are the positions the two bounds denote, [count] the number
    of bytes between them. *)
Lemma slice_in_int str start_raw end_raw start end_ pos st :
  let len := Z.of_nat (String.length str) in
  let begin := (if (start <? 0)%Z then len + start else start)%Z in
  let last := (if (end_ <? 0)%Z then len + end_ else end_)%Z in
  let count := (last - begin + 1)%Z in
  Str.stoi start_raw = Some start ->
  Str.stoi end_raw = Some end_ ->
  (len <= Str.INT_MAX)%Z ->
  (Str.INT_MIN <= last - begin < Str.INT_MAX)%Z ->
  (begin <= last -> last < Str.INT_MAX)%Z ->
  slice str start_raw end_raw pos st
  = if (count <=? 0)%Z then
      (st, Throw {| exc_pos := pos; what := "end of slice cannot be before the start." |})
    else if (len <? begin + count)%Z then
      (st, Throw {| exc_pos := pos; what := "slice extends outside of string bounds." |})
    else if ((start <? 0) && (0 <=? end_))%Z then
      (st, Throw {| exc_pos := pos;
                    what := "start cannot be negative where end is positive." |})
    else if ((0 <=? begin) && (begin <=? len))%Z then
      (st, Ok (String.substring (Z.to_nat begin) (Z.to_nat count) str))
    else (st, Fault SubstrRange).
Proof.
  intros len begin last count Hs He Hlen Hspan Hlast.
  pose proof (stoi_in_int _ _ Hs) as Hsr. pose proof (stoi_in_int _ _ He) as Her.
  unfold slice. rewrite Hs, He. fold len.
  unfold Str.INT_MIN, Str.INT_MAX in *.
  rewrite (wrap_int_small len) by (unfold Str.INT_MIN, Str.INT_MAX; lia).
  assert (Hbr : (-2147483648 <= begin <= 2147483647)%Z)
    by (unfold begin; destruct (Z.ltb_spec start 0); lia).
  assert (Hlr : (-2147483648 <= last <= 2147483647)%Z)
    by (unfold last; destruct (Z.ltb_spec end_ 0); lia).
  assert (Hb : (if (start <? 0)%Z then int_add len start else ret start) = ret begin).
  { unfold begin. destruct (Z.ltb_spec start 0); [|done].
    unfold int_add. rewrite in_int_true; [done|]. unfold Str.INT_MIN, Str.INT_MAX. lia. }
  rewrite Hb, bind_ret.
  assert (Hc : forall B (k : Z -> M B),
             bind (if (end_ <? 0)%Z
                   then from_end <- int_add len end_;; span <- int_sub from_end begin;;
                        int_add span 1
                   else span <- int_sub end_ begin;; int_add span 1) k st
             = k count st).
  { intros B k. unfold count, last in *. destruct (Z.ltb_spec end_ 0).
    - rewrite bind_assoc, bind_int_add by (unfold Str.INT_MIN, Str.INT_MAX; lia).
      rewrite bind_assoc, bind_int_sub by (unfold Str.INT_MIN, Str.INT_MAX; lia).
      by rewrite bind_int_add by (unfold Str.INT_MIN, Str.INT_MAX; lia).
    - rewrite bind_assoc, bind_int_sub by (unfold Str.INT_MIN, Str.INT_MAX; lia).
      by rewrite bind_int_add by (unfold Str.INT_MIN, Str.INT_MAX; lia). }
  rewrite Hc. destruct (Z.leb_spec count 0) as [|Hpos]; [done|].
  rewrite bind_int_add by (unfold Str.INT_MIN, Str.INT_MAX; lia).
  by repeat match goal with |- context [if ?c then _ else _] => destruct c end.
Qed.

Lemma slice_of_occurrence s p i pos st :
  p <> "" ->
  (Z.of_nat (String.length s) <= Str.INT_MAX)%Z ->
  occurs_at i p s ->
  slice s (Str.to_string i)
    (pretty (Z.of_nat i + Z.of_nat (String.length p) - 1)%Z) pos st = (st, Ok p).
Proof.
  intros Hp Hmax (pre & post & -> & <-).
  assert (0 < String.length p) as Hlen by (destruct p; [done | simpl; lia]).
  pose proof Hmax as Hmax'. rewrite !length_append in Hmax'. unfold Str.INT_MAX in *.
  rewrite (slice_in_int _ _ _ (Z.of_nat (String.length pre))
             (Z.of_nat (String.length pre) + Z.of_nat (String.length p) - 1)%Z);
    [| apply stoi_to_string; unfold Str.INT_MAX; lia
     | apply stoi_pretty_Z; unfold Str.INT_MAX; lia
     | done | |].
  - rewrite !length_append.
    set (a := Z.of_nat (String.length pre)) in *.
    set (b := Z.of_nat (String.length p)) in *.
    assert (Hlen' : Z.of_nat (String.length pre + (String.length p + String.length post))
                    = (a + b + Z.of_nat (String.length post))%Z) by lia.
    rewrite Hlen'. set (c := Z.of_nat (String.length post)) in *.
    assert (0 <= a /\ 0 < b /\ 0 <= c)%Z as (Ha & Hb & Hc) by lia.
    destruct (Z.ltb_spec a 0) as [?|_]; [lia|].
    destruct (Z.ltb_spec (a + b - 1) 0) as [?|_]; [lia|].
    replace (a + b - 1 - a + 1)%Z with b by lia.
    destruct (Z.leb_spec b 0) as [?|_]; [lia|].
    destruct (Z.ltb_spec (a + b + c) (a + b)) as [?|_]; [lia|].
    cbn [andb].
    destruct (Z.leb_spec 0 a) as [_|?]; [|lia].
    destruct (Z.leb_spec a (a + b + c)) as [_|?]; [|lia].
    unfold a, b. rewrite !Nat2Z.id.
    by rewrite substring_occurrence.
  - unfold Str.INT_MIN, Str.INT_MAX.
    destruct (Z.ltb_spec (Z.of_nat (String.length pre)) 0); [lia|].
    destruct (Z.ltb_spec (Z.of_nat (String.length pre) + Z.of_nat (String.length p) - 1) 0);
      lia.
  - unfold Str.INT_MAX.
    destruct (Z.ltb_spec (Z.of_nat (String.length pre) + Z.of_nat (String.length p) - 1) 0);
      lia.
Qed.

(** C9, amended.  For a non-empty pattern [p] and a string [s] whose length
    fits an [int]: [find(s, p)] is the empty string iff [p] is not a
    substring of [s]; otherwise it is the decimal index [i] of the first
    occurrence, and [slice(s, i, i + |p| - 1)] returns [p]. *)
Theorem find_slice_nonempty_pattern s p :
  p <> "" ->
  (Z.of_nat (String.length s) <= Str.INT_MAX)%Z ->
  find_slice_claim s p.
Proof.
  intros Hp Hmax. split; [apply find_empty_iff|].
  intros Hocc. unfold find, Str.find.
  destruct (Str.find_from 0 s p) as [i|] eqn:Hfind.
  - apply find_from_some in Hfind as (j & -> & Hat & Hmin).
    exists j. split; [done|]. split; [done|]. split; [done|].
    intros pos st. by apply slice_of_occurrence.
  - by apply find_from_none in Hfind.
Qed.

(** The pattern [bc] in [abcbc]. *)
Lemma find_slice_nonempty_pattern_witness : find_slice_claim "abcbc" "bc".
Proof. apply find_slice_nonempty_pattern; [discriminate | vm_compute; discriminate]. Defined.

(** C9, as stated, fails for the empty pattern: [find("ab", "")] is ["0"],
    and [slice("ab", "0", "-1")] counts its end from the end of the string
    and returns ["ab"], not the pattern. *)
Lemma find_slice_empty_pattern : ~ find_slice_claim "ab" "".
Proof.
  intros [_ H]. destruct H as (i & Hfind & _ & _ & Hslice).
  { by exists 0, "", "ab". }
  change (find "ab" "") with (Str.to_string 0) in Hfind.
  apply (inj pretty) in Hfind. subst i.
  specialize (Hslice Demo.p0 (Demo.start [])).
  vm_compute in Hslice. discriminate Hslice.
Qed.

(** [slice] measures the string with an [int]: on a string of 2^31 bytes
    the length wraps to a negative number and every slice is refused. *)
Lemma slice_beyond_int str pos st :
  Z.of_nat (String.length str) = (2 ^ 31)%Z ->
  slice str "0" "0" pos st
  = (st, Throw {| exc_pos := pos; what := "slice extends outside of string bounds." |}).
Proof.
  intros Hlen. unfold slice. change (Str.stoi "0") with (Some 0%Z). cbv iota.
  rewrite Hlen. reflexivity.
Qed.

(** ** The intrinsics that reach outside *)

(** The trim of [run] on an empty captured output. *)
Lemma run_empty_output X ev expr pos args s s1 cmd rc :
  WPP_DISABLE_RUN X = false ->
  ev expr args s = (s1, Ok cmd) ->
  exec X (cwd s1) cmd = ("", rc) ->
  intrinsic_run X ev expr pos args s = (s1, Fault BackOfEmpty).
Proof.
  intros Hflag Hev Hexec. unfold intrinsic_run. rewrite Hflag.
  rewrite (bind_ok _ _ _ _ _ Hev). unfold bind, get. by rewrite Hexec.
Qed.

Lemma pipe_empty_output X ev cmd data pos args s s1 s2 cmd_str data_str rc :
  WPP_DISABLE_RUN X = false ->
  ev cmd args s = (s1, Ok cmd_str) ->
  ev data args s1 = (s2, Ok data_str) ->
  exec_pipe X (cwd s2) cmd_str data_str = ("", rc) ->
  intrinsic_pipe X ev cmd data pos args s = (s2, Fault BackOfEmpty).
Proof.
  intros Hflag Hcmd Hdata Hexec. unfold intrinsic_pipe. rewrite Hflag.
  rewrite (bind_ok _ _ _ _ _ Hcmd), (bind_ok _ _ _ _ _ Hdata).
  unfold bind, get. by rewrite Hexec.
Qed.

(** A sub-document that throws leaves the directory [source] moved to. *)
Lemma source_throw_keeps_new_directory X ev expr pos args s s1 fname file t' root s2 e :
  ev expr args s = (s1, Ok fname) ->
  read_file X (cwd s1) fname = Some file ->
  document X (relative X (path_append X (cwd s1) fname) (base s1)) file (tree s1)
    = (t', inr root) ->
  ev root args (set_cwd (parent_path X (path_append X (cwd s1) fname)) (set_tree t' s1))
    = (s2, Throw e) ->
  intrinsic_source X ev expr pos args s = (s2, Throw e).
Proof.
  intros Hev Hread Hdoc Hsub. unfold intrinsic_source.
  rewrite (bind_ok _ _ _ _ _ Hev). unfold bind at 1, get at 1.
  rewrite Hread. unfold bind at 1, get at 1. unfold bind at 1, get at 1.
  rewrite Hdoc. unfold bind at 1, modify at 1. unfold bind at 1, modify at 1.
  unfold bind at 1. by rewrite Hsub.
Qed.

(** ** The example programs *)

Section Examples.

Import Demo Programs.

(** [let greet(x) "hello " .. x  greet("world")] prints [hello world]. *)
Example greet_world : (run 5 greet 6).2 = Ok "hello world".
Proof. vm_compute. reflexivity. Qed.

Example to_string_12 : Str.to_string 12 = "12".
Proof. reflexivity. Qed.

Example find_bc : find "abcbc" "bc" = "1".
Proof. reflexivity. Qed.

Example stoi_sign : Str.stoi "  -2x" = Some (-2)%Z.
Proof. reflexivity. Qed.

Example stoi_no_digit : Str.stoi "x1" = None.
Proof. reflexivity. Qed.

Example slice_bcde st : slice "abcdef" "1" "-2" p0 st = (st, Ok "bcde").
Proof. reflexivity. Qed.

(** [match "b" { "a" -> "1", "b" -> "2", * -> "3" }] is [2]. *)
Lemma map_first_match_witness :
run 2 match_b 6 = (start match_b, Ok "2").
Proof.
unfold run.
rewrite (proj1 (map_first_match host 1 6 0 [(1, 2); (3, 4)] 5 p0 None
                  (start match_b) (start match_b) "b" eq_refl eq_refl)
           [(1, 2)] 3 4 [] (start match_b) (start match_b) eq_refl).
- reflexivity.
- eapply arms_mismatch_cons; [reflexivity | discriminate | constructor].
- reflexivity.
Defined.

(** The block logs [x], drops the [y] of its second statement and returns
    [v]. *)
Lemma block_returns_trailing_witness :
run 3 block_v 4 = (set_cerr [Logged "x"] (start block_v), Ok "v").
Proof.
unfold run.
rewrite (block_returns_trailing host 2 4 [1; 2] 3 p0 None (start block_v)
           [""; "y"] (set_cerr [Logged "x"] (start block_v)) eq_refl).
- reflexivity.
- eapply stmts_run_cons; [reflexivity|].
  eapply stmts_run_cons; [reflexivity|]. constructor.
Defined.

(** A definition under a [Pre] without prefix and under a [Block]. *)
Lemma pre_without_prefix_vs_block_witness :
run 3 pre_definition 4 = run 3 pre_definition 3.
Proof.
unfold run.
pose proof (pre_without_prefix_vs_block host 1 3 4 2 [1] p0 p0 None
              (start pre_definition) eq_refl eq_refl eq_refl) as H.
set (r := eval_ast host 3 3 None (start pre_definition)) in *.
assert (Hr : r = (r.1, Ok "")) by (vm_compute; reflexivity).
rewrite Hr in H. destruct H as [_ H].
rewrite (H p0 eq_refl). by rewrite Hr.
Defined.

(** C8, as stated, fails on a statement that returns text: under the [Pre]
  the text ["a"] is returned, under the [Block] it is discarded. *)
Lemma pre_text_differs_from_block : run 3 pre_text 2 <> run 3 pre_text 3.
Proof. intros H. apply (f_equal snd) in H. vm_compute in H. discriminate H. Qed.

(** The two runs differ in the returned string only. *)
Lemma pre_text_results :
(run 3 pre_text 2).2 = Ok "a" /\ (run 3 pre_text 3).2 = Ok ""
/\ (run 3 pre_text 2).1 = (run 3 pre_text 3).1.
Proof. repeat split; vm_compute; reflexivity. Qed.

(** C3.  [let f() "b"  drop f()]: one definition and one [Drop] of the
  key [f0].  The [Drop] succeeds and the height of the key is zero, defines
  minus drops, yet the key is still in the table, bound to an empty stack:
  the [Drop] lambda erases a key only when it finds its stack already
  empty, one [Drop] late.  The paths that test for the key alone then take
  the dropped function for a defined one: a second [Drop] succeeds where
  the lambda's own [else] branch reports an undefined function, defining
  [f] again warns that it is redefined, and a parameter named [f] is
  reported as shadowing a function. *)
Lemma drop_leaves_empty_stack :
let fs := functions (run 3 define_drop 4).1 in
(run 3 define_drop 4).2 = Ok "" /\ height "f0" fs = 0 /\ fs !! "f0" = Some []
/\ (run 3 define_drop 5).2 = Ok ""
/\ cerr (run 3 Scripts.after_drop 8).1 = [Warned p0 "function 'f' redefined."]
/\ (run 3 Scripts.after_drop 7).2 = Ok "v"
/\ cerr (run 3 Scripts.after_drop 7).1
   = [Warned p0 "parameter f is shadowing a function."].
Proof. repeat split; vm_compute; reflexivity. Qed.

(** A second [Drop] then succeeds, pops nothing and removes the key. *)
Lemma second_drop_succeeds :
let fs := functions (run 3 define_drop 5).1 in
(run 3 define_drop 5).2 = Ok "" /\ fs !! "f0" = None.
Proof. repeat split; vm_compute; reflexivity. Qed.

(** [let g() p  let f(p) g()  f("v")]: the call of [g] inside [f] is made
  from the scope of [f] at address 0; the object of [g] is created at
  address 1 as a copy of it, and the scopes are afterwards what they were. *)
Lemma caller_scope_unchanged_witness :
scopes (set_scopes (scopes Scripts.inside_f ++ [{["p" := "v"]}]) Scripts.inside_f) !! 1
= Some {["p" := "v"]}
/\ scopes (eval_ast host 2 3 (Some 0) Scripts.inside_f).1 = scopes Scripts.inside_f.
Proof.
  destruct (proj2 (caller_scope_unchanged host 1) 3 "g" [] p0 0 Scripts.inside_f
              {["p" := "v"]} [2] 2 "g" [] 1 p0
              ltac:(reflexivity) ltac:(reflexivity) ltac:(vm_compute; reflexivity)
              ltac:(vm_compute; reflexivity) ltac:(reflexivity) ltac:(reflexivity))
    as ((_ & Hcopy & _) & _ & _ & _ & Hframe).
  exact (conj Hcopy Hframe).
Defined.

(** There [g] returns the value [f] was called with. *)
Example callee_reads_caller_binding :
(run 4 Scripts.inherit 6).2 = Ok "v"
/\ eval_ast host 2 3 (Some 0) Scripts.inside_f = (Scripts.inside_f, Ok "v").
Proof. split; vm_compute; reflexivity. Qed.

(** C1.  [source] on a file whose document throws while it is evaluated:
  the exception leaves [intrinsic_source] before the line that restores
  the directory, and the current directory stays the parent of the
  included file. *)
Lemma source_failure_leaves_directory :
cwd (start source_bad) = "/home"
/\ (run 4 source_bad 1).2 = Throw {| exc_pos := p0; what := "boom" |}
/\ cwd (run 4 source_bad 1).1 = "/home/inc".
Proof. repeat split; vm_compute; reflexivity. Qed.

(** The two exits on which the directory is the old one: the included
    document returns, or the file does not parse and the directory was
    never changed. *)
Lemma source_success_restores_directory :
(run 4 source_good 1).2 = Ok "hello" /\ cwd (run 4 source_good 1).1 = "/home".
Proof. repeat split; vm_compute; reflexivity. Qed.

Lemma source_parse_failure_keeps_directory :
(run 4 source_odd 1).2 = Throw {| exc_pos := p0; what := "unexpected token" |}
/\ cwd (run 4 source_odd 1).1 = "/home".
Proof. repeat split; vm_compute; reflexivity. Qed.

(** C2.  A call [f(log("x"))] from the top level, where the parameter of
  [f] is in no inherited scope: the argument is evaluated twice, once for
  [result] and once more in [insert_or_assign], and the text is logged
  twice. *)
Lemma argument_evaluated_twice :
(run 5 call_log 5).2 = Ok "body"
/\ cerr (run 5 call_log 5).1 = [Logged "x"; Logged "x"].
Proof. repeat split; vm_compute; reflexivity. Qed.

(** The same call from a scope that already binds the parameter takes the
  other branch, which stores [result]: the argument is evaluated once. *)
Lemma argument_evaluated_once_when_shadowing :
(run 6 call_log 9).2 = Ok "body"
/\ cerr (run 6 call_log 9).1
   = [Logged "x";
      Warned p0 "parameter 'a' inside function 'f' shadows parameter from parent scope."].
Proof. repeat split; vm_compute; reflexivity. Qed.

(** C4.  First evaluation of [let x "v"]: the body becomes a [String] with
  the result, the definition is registered under ["x0"] and the empty
  string is returned, but the [Fn] that replaces the [Var] carries the
  mangled key ["x0"] as its identifier, not [x]; evaluated again, the
  node registers itself under ["x00"]. *)
Lemma var_becomes_mangled_fn :
let s' := (run 3 let_x 1).1 in
(run 3 let_x 1).2 = Ok ""
/\ tree s' !! 0 = Some (wpp.String "v" p0)
/\ tree s' !! 1 = Some (wpp.Fn "x0" [] 0 p0)
/\ functions s' !! "x0" = Some [1]
/\ functions (run 3 let_x 2).1 !! "x00" = Some [1].
Proof. repeat split; vm_compute; reflexivity. Qed.

(** C10.  [run("true")] and [pipe("true", "true")], whose subprocess prints
  nothing and exits with status zero: the trim calls [back()] on the
  empty output. *)
Lemma run_reads_back_of_empty_output :
exec host "/home" "true" = ("", 0%Z)
/\ (run 3 shell_calls 1).2 = Fault BackOfEmpty
/\ (run 3 shell_calls 2).2 = Fault BackOfEmpty
/\ (run 3 shell_calls 4).2 = Ok "hi".
Proof. repeat split; vm_compute; reflexivity. Qed.

End Examples.

(** * Further properties *)

(** ** Invariants of the evaluation *)

Section Invariant.
Variable X : Extern.
Variable P : State -> State -> Prop.
Hypothesis P_refl : forall s, P s s.
Hypothesis P_trans : forall s1 s2 s3, P s1 s2 -> P s2 s3 -> P s1 s3.
Hypothesis P_functions : forall f s, P s (set_functions f s).
Hypothesis P_cwd : forall d s, P s (set_cwd d s).
Hypothesis P_cerr : forall c s, P s (set_cerr c s).
Hypothesis P_scopes : forall a s, P s (set_scopes a s).
Hypothesis P_replace : forall id v s, P s (set_tree (<[id := v]> (tree s)) s).
Hypothesis P_parse : forall path text s, P s (set_tree (document X path text (tree s)).1 s).

Variable ev : node_t -> option nat -> M string.
Hypothesis ev_keeps : forall node args, keeps P (ev node args).

Ltac inv_step :=
  match goal with
  | |- keeps P (bind _ _) => apply (keeps_bind P P_trans); [| intros ?]
  | |- keeps P (try_catch _ _) => apply (keeps_try_catch P P_trans); [| intros ?]
  | |- keeps P (ret _) => apply (keeps_ret P P_refl)
  | |- keeps P (throw _ _) => apply (keeps_throw P P_refl)
  | |- keeps P (fail _) => apply (keeps_fail P P_refl)
  | |- keeps P (get _) => apply (keeps_get P P_refl)
  | |- keeps P (node_at _) => apply (keeps_node_at P P_refl)
  | |- keeps P (scope_at _) => apply (keeps_scope_at P P_refl)
  | |- keeps P (fun s => (s, _)) => apply (keeps_const P P_refl)
  | |- keeps P (ev _ _) => apply ev_keeps
  | |- keeps P (modify _) => apply keeps_modify; intros ?; solve [auto]
  | |- keeps P _ => assumption
  | |- keeps P (match ?x with _ => _ end) => destruct x
  end.

Lemma inv_warn pos msg : keeps P (warn pos msg).
Proof. unfold warn. repeat inv_step. Qed.

Lemma inv_log text : keeps P (log text).
Proof. unfold log. repeat inv_step. Qed.

Lemma inv_enabled flag : keeps P (enabled flag).
Proof. unfold enabled. repeat inv_step. Qed.

Lemma inv_replace id v : keeps P (replace id v).
Proof. intros s. unfold replace. case_decide; simpl; auto. Qed.

Lemma inv_scope_write a m : keeps P (scope_write a m).
Proof. unfold scope_write. repeat inv_step. Qed.

Lemma inv_trim_newline str : keeps P (trim_newline str).
Proof. unfold trim_newline. repeat inv_step. Qed.

Lemma inv_slice str a b pos : keeps P (slice str a b pos).
Proof. unfold slice, int_add, int_sub. repeat inv_step. Qed.

Lemma inv_with_scope {A} init (k : nat -> M A) :
  (forall e, keeps P (k e)) -> keeps P (with_scope init k).
Proof.
  intros Hk s. unfold with_scope.
  specialize (Hk (length (scopes s)) (set_scopes (scopes s ++ [init]) s)).
  destruct (k _ _) as [s' r]. simpl in *.
  eapply P_trans; [apply P_scopes|]. eapply P_trans; [exact Hk|]. apply P_scopes.
Qed.

Lemma inv_eval_stmts stmts args str : keeps P (eval_stmts ev stmts args str).
Proof. revert str. induction stmts as [|node rest IH]; intros str; simpl; repeat inv_step. apply IH. Qed.

Lemma inv_find_if t cases args : keeps P (find_if ev t cases args).
Proof. induction cases as [|elem rest IH]; simpl; repeat inv_step. Qed.

Lemma inv_pre_stmt id stmt args : keeps P (pre_stmt ev id stmt args).
Proof.
  pose proof inv_replace. pose proof inv_eval_stmts.
  unfold pre_stmt, pre_exprs. repeat (inv_step || match goal with H : _ |- _ => apply H end).
Qed.

Lemma inv_pre_stmts id stmts args str : keeps P (pre_stmts ev id stmts args str).
Proof.
  revert str. induction stmts as [|stmt rest IH]; intros str; simpl; [repeat inv_step|].
  apply (keeps_bind P P_trans); [apply inv_pre_stmt | intros r; apply IH].
Qed.

Lemma inv_bind_args e callee_name callee_pos params caller_args i args :
  keeps P (bind_args ev e callee_name callee_pos params caller_args i args).
Proof.
  pose proof inv_enabled. pose proof inv_warn. pose proof inv_scope_write.
  revert i. induction caller_args as [|arg rest IH]; intros i; simpl.
  - repeat inv_step.
  - repeat (inv_step || match goal with H : _ |- _ => apply H end).
Qed.

Lemma inv_source expr pos args : keeps P (intrinsic_source X ev expr pos args).
Proof.
  unfold intrinsic_source.
  apply (keeps_bind P P_trans); [apply ev_keeps | intros fname].
  apply (keeps_bind P P_trans); [repeat inv_step | intros old_path].
  destruct (read_file X old_path fname) as [file|]; [|repeat inv_step].
  apply (keeps_bind P P_trans); [repeat inv_step | intros b].
  intros s. unfold bind at 1, get at 1. cbn beta iota.
  destruct (document X (relative X (path_append X old_path fname) b) file (tree s))
    as [t' parsed] eqn:Hdoc.
  assert (Hparse : P s (set_tree t' s)).
  { pose proof (P_parse (relative X (path_append X old_path fname) b) file s) as Hp.
    by rewrite Hdoc in Hp. }
  assert (Hrest : keeps P (match parsed with
            | inl e => fun s0 => (s0, Throw e)
            | inr root =>
                modify (set_cwd (parent_path X (path_append X old_path fname)));;;
                str <- ev root args;; modify (set_cwd old_path);;; ret str
            end)) by repeat inv_step.
  unfold bind at 1, modify at 1. eapply P_trans; [exact Hparse | apply Hrest].
Qed.

Lemma inv_eval expr pos args : keeps P (intrinsic_eval X ev expr pos args).
Proof.
  unfold intrinsic_eval.
  apply (keeps_bind P P_trans); [apply ev_keeps | intros code].
  apply (keeps_try_catch P P_trans); [|intros e; repeat inv_step].
  intros s. unfold bind at 1, get at 1. cbn beta iota.
  destruct (document X "<eval>" code (tree s)) as [t' parsed] eqn:Hdoc.
  assert (Hparse : P s (set_tree t' s)).
  { pose proof (P_parse "<eval>" code s) as Hp. by rewrite Hdoc in Hp. }
  assert (Hrest : keeps P (match parsed with
            | inl e => fun s0 => (s0, Throw e)
            | inr root => ev root args
            end)) by repeat inv_step.
  unfold bind at 1, modify at 1. eapply P_trans; [exact Hparse | apply Hrest].
Qed.

Lemma inv_visit node_id variant args : keeps P (visit X ev node_id variant args).
Proof.
  pose proof inv_enabled. pose proof inv_warn. pose proof inv_log.
  pose proof inv_replace. pose proof inv_trim_newline. pose proof inv_slice.
  pose proof inv_eval_stmts. pose proof inv_find_if. pose proof inv_pre_stmts.
  pose proof inv_source. pose proof inv_eval. pose proof inv_bind_args.
  destruct variant; cbn [visit];
    unfold visit_intrinsic, visit_fn_invoke, visit_fn, visit_var, visit_drop,
      visit_map, intrinsic_assert, intrinsic_error, intrinsic_file,
      intrinsic_log, intrinsic_escape, intrinsic_slice,
      intrinsic_find, intrinsic_length, intrinsic_run, intrinsic_pipe.
  all: repeat (inv_step || match goal with
                           | H : _ |- _ => apply H
                           | |- keeps P (with_scope _ _) => apply inv_with_scope; intros ?
                           end).
Qed.
End Invariant.

Lemma inv_eval_ast X P :
  (forall s, P s s) ->
  (forall s1 s2 s3, P s1 s2 -> P s2 s3 -> P s1 s3) ->
  (forall f s, P s (set_functions f s)) ->
  (forall d s, P s (set_cwd d s)) ->
  (forall c s, P s (set_cerr c s)) ->
  (forall a s, P s (set_scopes a s)) ->
  (forall id v s, P s (set_tree (<[id := v]> (tree s)) s)) ->
  (forall path text s, P s (set_tree (document X path text (tree s)).1 s)) ->
  forall fuel node_id args, keeps P (eval_ast X fuel node_id args).
Proof.
  intros Hrefl Htrans Hf Hd Hc Ha Hr Hp.
  induction fuel as [|fuel IH]; intros node_id args; simpl.
  - by apply keeps_const.
  - apply (keeps_bind _ Htrans); [by apply keeps_node_at|].
    intros variant. by apply inv_visit.
Qed.

(** X12.  No evaluation, whatever its outcome, changes the base directory
    or the warning flags of the environment. *)
Theorem eval_keeps_configuration X fuel node_id args s :
  base (eval_ast X fuel node_id args s).1 = base s
  /\ warnings (eval_ast X fuel node_id args s).1 = warnings s.
Proof.
  apply (inv_eval_ast X same_config); unfold same_config; try done.
  intros s1 s2 s3 [? ?] [? ?]. split; congruence.
Qed.

(** X13.  With a parser that only adds nodes, the arena never loses a slot
    during an evaluation, whatever its outcome: every handle that was valid
    before is valid after. *)
Theorem arena_only_grows X fuel node_id args s :
  parser_appends X ->
  length (tree s) <= length (tree (eval_ast X fuel node_id args s).1)
  /\ forall id, is_Some (tree s !! id) ->
                is_Some (tree (eval_ast X fuel node_id args s).1 !! id).
Proof.
  intros Hparser.
  assert (Hlen : arena_grows s (eval_ast X fuel node_id args s).1).
  { apply (inv_eval_ast X arena_grows); unfold arena_grows; simpl; intros;
      rewrite ?length_insert; first [lia | apply Hparser]. }
  split; [exact Hlen|].
  intros id Hid. apply lookup_lt_is_Some in Hid. apply lookup_lt_is_Some.
  unfold arena_grows in Hlen. lia.
Qed.

Lemma demo_parser_appends : parser_appends Demo.host.
Proof.
  intros path text t. simpl. unfold Demo.parse.
  destruct text as [|c rest]; simpl; [rewrite length_app; simpl; lia|].
  destruct c as [[] [] [] [] [] [] [] []]; simpl; rewrite ?length_app; simpl; lia.
Qed.

Lemma arena_only_grows_witness :
  2 <= length (tree (Demo.run 4 Programs.source_good 1).1).
Proof.
  exact (proj1 (arena_only_grows Demo.host 4 1 None (Demo.start Programs.source_good)
                  demo_parser_appends)).
Defined.

(** *** The current directory after an evaluation that returns *)

Section Returns.
Variable X : Extern.
Variable ev : node_t -> option nat -> M string.
Hypothesis ev_returns : forall node args, returns_in same_cwd (ev node args).

Lemma returns_bind {A B} (m : M A) (k : A -> M B) :
  returns_in same_cwd m -> (forall a, returns_in same_cwd (k a)) ->
  returns_in same_cwd (bind m k).
Proof.
  intros Hm Hk s s' b. unfold bind.
  destruct (m s) as [s1 [a|e|f|]] eqn:Hms; try discriminate.
  intros Hks. apply Hm in Hms. apply Hk in Hks. unfold same_cwd in *. congruence.
Qed.

Lemma returns_pure {A} (m : M A) :
  (forall s, (m s).1 = s) -> returns_in same_cwd m.
Proof. intros H s s' a Hm. pose proof (H s) as Hs. rewrite Hm in Hs. simpl in Hs. by subst. Qed.

Lemma returns_modify (f : State -> State) :
  (forall s, cwd (f s) = cwd s) -> returns_in same_cwd (modify f).
Proof. intros H s s' a [= <- _]. apply H. Qed.

Lemma returns_never {A} (m : M A) :
  (forall s a, (m s).2 <> Ok a) -> returns_in same_cwd m.
Proof. intros H s s' a Hm. destruct (H s a). by rewrite Hm. Qed.

Ltac ret_step :=
  match goal with
  | |- returns_in same_cwd (bind _ _) => apply returns_bind; [| intros ?]
  | |- returns_in same_cwd (ret _) => apply returns_pure; reflexivity
  | |- returns_in same_cwd (get _) => apply returns_pure; reflexivity
  | |- returns_in same_cwd (throw _ _) => apply returns_never; discriminate
  | |- returns_in same_cwd (fail _) => apply returns_never; discriminate
  | |- returns_in same_cwd (fun s => (s, Throw _)) => apply returns_never; discriminate
  | |- returns_in same_cwd (ev _ _) => apply ev_returns
  | |- returns_in same_cwd (modify _) => apply returns_modify; reflexivity
  | |- returns_in same_cwd _ => assumption
  | |- returns_in same_cwd (match ?x with _ => _ end) => destruct x
  end.

Lemma returns_node_at id : returns_in same_cwd (node_at id).
Proof. apply returns_pure. intros s. unfold node_at. by destruct (tree s !! id). Qed.

Lemma returns_scope_at a : returns_in same_cwd (scope_at a).
Proof. apply returns_pure. intros s. unfold scope_at. by destruct (scopes s !! a). Qed.

Lemma returns_replace id v : returns_in same_cwd (replace id v).
Proof. intros s s' a. unfold replace. case_decide; intros [= <- _]; reflexivity. Qed.

Lemma returns_warn pos msg : returns_in same_cwd (warn pos msg).
Proof. unfold warn. ret_step. Qed.

Lemma returns_log text : returns_in same_cwd (log text).
Proof. unfold log. ret_step. Qed.

Lemma returns_enabled flag : returns_in same_cwd (enabled flag).
Proof. unfold enabled. ret_step. Qed.

Lemma returns_scope_write a m : returns_in same_cwd (scope_write a m).
Proof. unfold scope_write. ret_step. Qed.

Lemma returns_trim_newline str : returns_in same_cwd (trim_newline str).
Proof. unfold trim_newline. repeat ret_step. Qed.

Lemma returns_slice str a b pos : returns_in same_cwd (slice str a b pos).
Proof. unfold slice, int_add, int_sub. repeat ret_step. Qed.

Lemma returns_with_scope {A} init (k : nat -> M A) :
  (forall e, returns_in same_cwd (k e)) -> returns_in same_cwd (with_scope init k).
Proof.
  intros Hk s s' a. unfold with_scope.
  destruct (k _ _) as [s1 r] eqn:Hks. intros [= <- ->].
  apply Hk in Hks. exact Hks.
Qed.

Lemma returns_eval_stmts stmts args str :
  returns_in same_cwd (eval_stmts ev stmts args str).
Proof.
  revert str. induction stmts as [|node rest IH]; intros str; simpl; repeat ret_step.
  apply IH.
Qed.

Lemma returns_find_if t cases args : returns_in same_cwd (find_if ev t cases args).
Proof. induction cases as [|elem rest IH]; simpl; repeat ret_step. Qed.

Lemma returns_pre_stmt id stmt args : returns_in same_cwd (pre_stmt ev id stmt args).
Proof.
  pose proof returns_replace. pose proof returns_eval_stmts. pose proof returns_node_at.
  unfold pre_stmt, pre_exprs.
  repeat (ret_step || match goal with H : _ |- _ => apply H end).
Qed.

Lemma returns_pre_stmts id stmts args str :
  returns_in same_cwd (pre_stmts ev id stmts args str).
Proof.
  revert str. induction stmts as [|stmt rest IH]; intros str; simpl; [repeat ret_step|].
  apply returns_bind; [apply returns_pre_stmt | intros r; apply IH].
Qed.

Lemma returns_bind_args e callee_name callee_pos params caller_args i args :
  returns_in same_cwd (bind_args ev e callee_name callee_pos params caller_args i args).
Proof.
  pose proof returns_enabled. pose proof returns_warn. pose proof returns_scope_write.
  pose proof returns_scope_at.
  revert i. induction caller_args as [|arg rest IH]; intros i; simpl.
  - repeat ret_step.
  - repeat (ret_step || match goal with H : _ |- _ => apply H end).
Qed.

(** [source] moves the directory and moves it back: where the included
    document returns, the directory is the one [source] found. *)
Lemma returns_source expr pos args :
  returns_in same_cwd (intrinsic_source X ev expr pos args).
Proof.
  unfold intrinsic_source.
  apply returns_bind; [apply ev_returns | intros fname].
  intros s s' a. unfold bind at 1, get at 1.
  destruct (read_file X (cwd s) fname) as [file|]; [|discriminate].
  unfold bind at 1, get at 1. unfold bind at 1, get at 1.
  destruct (document X _ file (tree s)) as [t' [e|root]]; unfold bind at 1, modify at 1;
    [discriminate|].
  unfold bind at 1, modify at 1. unfold bind at 1.
  destruct (ev root args _) as [s1 [str|e|f|]]; try discriminate.
  unfold bind, modify, ret. intros [= <- _]. reflexivity.
Qed.

Lemma returns_eval expr pos args :
  returns_in same_cwd (intrinsic_eval X ev expr pos args).
Proof.
  unfold intrinsic_eval.
  apply returns_bind; [apply ev_returns | intros code].
  intros s s' a. unfold try_catch, bind at 1, get at 1.
  destruct (document X "<eval>" code (tree s)) as [t' [e|root]];
    unfold bind at 1, modify at 1; [discriminate|].
  destruct (ev root args (set_tree t' s)) as [s1 [str|e|f|]] eqn:Hroot; try discriminate.
  intros [= <- _]. by apply ev_returns in Hroot.
Qed.

Lemma returns_visit node_id variant args :
  returns_in same_cwd (visit X ev node_id variant args).
Proof.
  pose proof returns_enabled. pose proof returns_warn. pose proof returns_log.
  pose proof returns_replace. pose proof returns_trim_newline. pose proof returns_slice.
  pose proof returns_eval_stmts. pose proof returns_find_if. pose proof returns_pre_stmts.
  pose proof returns_source. pose proof returns_eval. pose proof returns_bind_args.
  pose proof returns_node_at. pose proof returns_scope_at.
  destruct variant; cbn [visit];
    unfold visit_intrinsic, visit_fn_invoke, visit_fn, visit_var, visit_drop,
      visit_map, intrinsic_assert, intrinsic_error, intrinsic_file,
      intrinsic_log, intrinsic_escape, intrinsic_slice,
      intrinsic_find, intrinsic_length, intrinsic_run, intrinsic_pipe.
  all: repeat (ret_step || match goal with
                           | H : _ |- _ => apply H
                           | |- returns_in same_cwd (with_scope _ _) =>
                               apply returns_with_scope; intros ?
                           end).
Qed.
End Returns.

Lemma eval_ast_returns_same_cwd X fuel :
  forall node_id args, returns_in same_cwd (eval_ast X fuel node_id args).
Proof.
  induction fuel as [|fuel IH]; intros node_id args; simpl.
  - intros s s' v. discriminate.
  - apply (returns_bind (node_at node_id)); [apply returns_node_at|].
    intros variant. by apply returns_visit.
Qed.

(** X11.  An evaluation that returns a string leaves the current directory
    as it found it: every [source] on the way moved the directory back. *)
Theorem returning_evaluation_restores_directory X fuel node_id args s s' v :
  eval_ast X fuel node_id args s = (s', Ok v) -> cwd s' = cwd s.
Proof. apply eval_ast_returns_same_cwd. Qed.

Lemma returning_evaluation_restores_directory_witness :
  cwd (Demo.run 4 Programs.source_good 1).1 = "/home".
Proof.
  apply (returning_evaluation_restores_directory Demo.host 4 1 None
           (Demo.start Programs.source_good) _ "hello").
  vm_compute. reflexivity.
Defined.

(** ** [escape] *)

Lemma escape_char_length c : 1 <= String.length (Str.escape_char c) <= 2.
Proof. destruct c as [[] [] [] [] [] [] [] []]; vm_compute; lia. Qed.

(** X1.  [escape] never shortens its input. *)
Theorem escape_never_shortens input :
  String.length input <= String.length (Str.escape input).
Proof.
  induction input as [|c rest IH]; [done|].
  cbn [Str.escape]. rewrite length_append. simpl.
  pose proof (escape_char_length c). lia.
Qed.

(** X2.  Escaping a concatenation is concatenating the escapes. *)
Theorem escape_append a b : Str.escape (a +:+ b) = Str.escape a +:+ Str.escape b.
Proof.
  induction a as [|c a IH]; [done|].
  rewrite append_cons. cbn [Str.escape]. by rewrite IH, append_assoc.
Qed.

Lemma has_byte_append c a b : has_byte c (a +:+ b) = has_byte c a || has_byte c b.
Proof.
  induction a as [|d a IH]; [done|].
  rewrite append_cons. simpl. rewrite IH. by rewrite orb_assoc.
Qed.

Lemma escape_char_no_control c d :
  d = "010"%char \/ d = "009"%char \/ d = "013"%char ->
  has_byte d (Str.escape_char c) = false.
Proof.
  intros [-> | [-> | ->]]; destruct c as [[] [] [] [] [] [] [] []]; reflexivity.
Qed.

(** X3.  The result of [escape] holds no line feed, no tab and no carriage
    return. *)
Theorem escape_leaves_no_control_byte input d :
  d = "010"%char \/ d = "009"%char \/ d = "013"%char ->
  has_byte d (Str.escape input) = false.
Proof.
  intros Hd. induction input as [|c rest IH]; [done|].
  cbn [Str.escape]. by rewrite has_byte_append, escape_char_no_control, IH.
Qed.

Lemma escape_leaves_no_control_byte_witness :
  has_byte "010"%char (Str.escape ("a" +:+ endl +:+ "b")) = false.
Proof. apply escape_leaves_no_control_byte. left. reflexivity. Defined.

(** ** [slice] and [length] *)

Lemma stoi_pretty_negative (p : positive) :
  (Str.INT_MIN <= Z.neg p)%Z -> Str.stoi (pretty (Z.neg p)) = Some (Z.neg p).
Proof.
  intros Hmin. change (pretty (Z.neg p)) with ("-" +:+ pretty_N_go (N.pos p) "").
  destruct (pretty_go_head (N.pos p) "") as (c & r & d & Hhead & Hd); [lia|].
  pose proof (digits_pretty_go (N.pos p) "") as Hval. rewrite Hhead in Hval |- *.
  change ("-" +:+ String.String c r) with (String.String "-"%char (String.String c r)).
  unfold Str.stoi. cbn [Str.skip_space]. change (Str.is_space "-"%char) with false.
  cbv iota. rewrite Hd, Hval. cbn [Str.digits].
  unfold Str.INT_MIN, Str.INT_MAX in *.
  change (Z.of_N (N.pos p)) with (Z.pos p). change (- Z.pos p)%Z with (Z.neg p).
  rewrite andb_true_intro; [done|]. split; apply Z.leb_le; lia.
Qed.

Lemma stoi_pretty_int (z : Z) :
  (Str.INT_MIN <= z <= Str.INT_MAX)%Z -> Str.stoi (pretty z) = Some z.
Proof.
  intros [Hmin Hmax]. destruct z as [|p|p].
  - reflexivity.
  - apply stoi_pretty_Z. unfold Str.INT_MAX in *. lia.
  - by apply stoi_pretty_negative.
Qed.

Lemma substring_length n m s :
  n + m <= String.length s -> String.length (String.substring n m s) = m.
Proof.
  revert n m. induction s as [|c s IH]; intros [|n] [|m]; simpl; try lia.
  - intros H. rewrite (IH 0 m); lia.
  - intros H. apply (IH n 0). lia.
  - intros H. apply (IH n (S m)). lia.
Qed.

(** X4.  [slice] on a window inside the string, for bounds that fit an
    [int], a negative bound counting from the end: when the first position
    is not after the last, both are inside the string, and the start is not
    negative with a non-negative end, [slice] returns the bytes from the
    first to the last position, both included, and changes nothing. *)
Theorem slice_window str (b e : Z) pos st :
  let len := Z.of_nat (String.length str) in
  let first := slice_from len b in
  let last := slice_from len e in
  (len <= Str.INT_MAX)%Z ->
  (Str.INT_MIN <= b <= Str.INT_MAX)%Z ->
  (Str.INT_MIN <= e <= Str.INT_MAX)%Z ->
  (0 <= first <= last)%Z -> (last < len)%Z ->
  ~ (b < 0 /\ 0 <= e)%Z ->
  slice str (pretty b) (pretty e) pos st
  = (st, Ok (String.substring (Z.to_nat first) (Z.to_nat (last - first + 1)) str))
  /\ Z.of_nat (String.length
       (String.substring (Z.to_nat first) (Z.to_nat (last - first + 1)) str))
     = (last - first + 1)%Z.
Proof.
  intros len first last Hlen Hb He Hwin Hlast Hsign. split.
  - rewrite (slice_in_int str _ _ b e pos st (stoi_pretty_int b Hb) (stoi_pretty_int e He)
               Hlen).
    + fold len. change (if (b <? 0)%Z then (len + b)%Z else b) with first.
      change (if (e <? 0)%Z then (len + e)%Z else e) with last.
      destruct (Z.leb_spec (last - first + 1) 0); [lia|].
      destruct (Z.ltb_spec len (first + (last - first + 1))); [lia|].
      destruct (Z.ltb_spec b 0); destruct (Z.leb_spec 0 e); try lia; cbn [andb].
      all: destruct (Z.leb_spec 0 first); [|lia].
      all: destruct (Z.leb_spec first len); [|lia]; done.
    + fold len. change (if (b <? 0)%Z then (len + b)%Z else b) with first.
      change (if (e <? 0)%Z then (len + e)%Z else e) with last.
      unfold Str.INT_MIN, Str.INT_MAX in *. lia.
    + fold len. change (if (e <? 0)%Z then (len + e)%Z else e) with last.
      unfold Str.INT_MAX in *. lia.
  - rewrite substring_length; lia.
Qed.

Lemma slice_window_witness :
  slice "abcdef" "1" "-2" Demo.p0 (Demo.start []) = (Demo.start [], Ok "bcde").
Proof.
  apply (proj1 (slice_window "abcdef" 1 (-2) Demo.p0 (Demo.start [])
    ltac:(vm_compute; discriminate) ltac:(vm_compute; split; discriminate)
    ltac:(vm_compute; split; discriminate) ltac:(vm_compute; split; discriminate)
    ltac:(reflexivity) ltac:(vm_compute; intros [H _]; discriminate H))).
Defined.

(** X5.  [slice] with a negative start and a non-negative end never
    returns.  On a string whose length fits an [int], and where neither the
    distance from the position the start denotes to the end nor the end
    plus one leaves the range of [int], it throws: "end of slice cannot be
    before the start." when the end lies before the position [len + start],
    otherwise "slice extends outside of string bounds." when the end is at
    or past the length, otherwise "start cannot be negative where end is
    positive.". *)
Theorem slice_negative_start_positive_end str start_raw end_raw start end_ pos st :
  let len := Z.of_nat (String.length str) in
  Str.stoi start_raw = Some start ->
  Str.stoi end_raw = Some end_ ->
  (start < 0)%Z -> (0 <= end_)%Z ->
  (len <= Str.INT_MAX)%Z ->
  (end_ - (len + start) < Str.INT_MAX)%Z ->
  (end_ < Str.INT_MAX)%Z ->
  slice str start_raw end_raw pos st
  = (st, Throw {| exc_pos := pos;
                  what := if (end_ <? len + start)%Z
                          then "end of slice cannot be before the start."
                          else if (len <=? end_)%Z
                          then "slice extends outside of string bounds."
                          else "start cannot be negative where end is positive." |}).
Proof.
  intros len Hs He Hneg Hpos Hlen Hspan Hend.
  pose proof (stoi_in_int _ _ Hs) as Hsr.
  rewrite (slice_in_int str _ _ start end_ pos st Hs He Hlen); fold len.
  - destruct (Z.ltb_spec start 0); [|lia]. destruct (Z.ltb_spec end_ 0); [lia|].
    destruct (Z.leb_spec 0 end_); [|lia]. cbn [andb].
    destruct (Z.leb_spec (end_ - (len + start) + 1) 0);
      destruct (Z.ltb_spec end_ (len + start)); try lia; [done|].
    destruct (Z.ltb_spec len (len + start + (end_ - (len + start) + 1)));
      destruct (Z.leb_spec len end_); try lia; done.
  - destruct (Z.ltb_spec start 0); [|lia]. destruct (Z.ltb_spec end_ 0); [lia|].
    unfold Str.INT_MIN, Str.INT_MAX in *. lia.
  - destruct (Z.ltb_spec end_ 0); lia.
Qed.

Lemma slice_negative_start_positive_end_witness :
  slice "abc" "-1" "2" Demo.p0 (Demo.start [])
  = (Demo.start [],
     Throw {| exc_pos := Demo.p0;
              what := "start cannot be negative where end is positive." |}).
Proof.
  apply (slice_negative_start_positive_end "abc" "-1" "2" (-1) 2);
    [reflexivity | reflexivity | lia | lia | vm_compute; discriminate
    | reflexivity | reflexivity].
Defined.

(** X6.  For a string whose length fits an [int], a start from [0] to
    [INT_MAX] and an end from [0] to [INT_MAX - 1] (so that no [int]
    leaves its range): an end before the start is refused with "end of
    slice cannot be before the start.", an end not before the start and at
    or past the end of the string with "slice extends outside of string
    bounds.". *)
Theorem slice_rejects str (b e : Z) pos st :
  let len := Z.of_nat (String.length str) in
  (len <= Str.INT_MAX)%Z ->
  (0 <= b <= Str.INT_MAX)%Z -> (0 <= e < Str.INT_MAX)%Z ->
  ((e < b)%Z ->
     slice str (pretty b) (pretty e) pos st
     = (st, Throw {| exc_pos := pos; what := "end of slice cannot be before the start." |}))
  /\ ((b <= e)%Z -> (len <= e)%Z ->
     slice str (pretty b) (pretty e) pos st
     = (st, Throw {| exc_pos := pos; what := "slice extends outside of string bounds." |})).
Proof.
  intros len Hlen Hb He.
  assert (Hsb : Str.stoi (pretty b) = Some b) by (by apply stoi_pretty_Z).
  assert (Hse : Str.stoi (pretty e) = Some e)
    by (apply stoi_pretty_Z; unfold Str.INT_MAX in *; lia).
  assert (Hslice := slice_in_int str _ _ b e pos st Hsb Hse Hlen).
  fold len in Hslice.
  destruct (Z.ltb_spec b 0); [lia|]. destruct (Z.ltb_spec e 0); [lia|].
  unfold Str.INT_MIN, Str.INT_MAX in *.
  rewrite Hslice by lia.
  split; intros.
  - destruct (Z.leb_spec (e - b + 1) 0); [done | lia].
  - destruct (Z.leb_spec (e - b + 1) 0); [lia|].
    destruct (Z.ltb_spec len (b + (e - b + 1))); [done | lia].
Qed.

Lemma slice_rejects_witness :
  slice "abc" "2" "1" Demo.p0 (Demo.start [])
  = (Demo.start [],
     Throw {| exc_pos := Demo.p0; what := "end of slice cannot be before the start." |}).
Proof.
  apply (proj1 (slice_rejects "abc" 2 1 Demo.p0 (Demo.start [])
    ltac:(vm_compute; discriminate) ltac:(vm_compute; split; discriminate)
    ltac:(vm_compute; split; [discriminate | reflexivity]))).
  reflexivity.
Defined.

Lemma digits_value_pretty_go x : forall s,
  digits_value (pretty_N_go x s) 0 = digits_value s x.
Proof.
  induction (N.lt_wf_0 x) as [x _ IH]. intros s.
  destruct (decide (x = 0)%N) as [->|Hx]; [by rewrite pretty_N_go_0|].
  rewrite pretty_N_go_step by lia.
  rewrite IH by (apply N.div_lt; lia).
  cbn [digits_value]. rewrite digit_of_pretty_char by (apply N.mod_lt; lia).
  f_equal. symmetry. by apply N.div_mod.
Qed.

Lemma pretty_go_head_positive x : forall s,
  (0 < x)%N ->
  exists c r d, pretty_N_go x s = String.String c r
                /\ Str.digit_of c = Some d /\ (0 < d)%N.
Proof.
  induction (N.lt_wf_0 x) as [x _ IH]. intros s Hx.
  rewrite pretty_N_go_step by done.
  destruct (decide (x `div` 10 = 0)%N) as [Hq|Hq].
  - rewrite Hq, pretty_N_go_0. eexists _, _, _. split; [done|]. split.
    + apply digit_of_pretty_char, N.mod_lt. lia.
    + pose proof (N.div_mod x 10 ltac:(lia)) as Hdm. rewrite Hq in Hdm. lia.
  - apply IH; [apply N.div_lt; [done | reflexivity] | by apply N.neq_0_lt_0].
Qed.

(** [std::to_string] of an unsigned value writes its decimal numeral. *)
Lemma to_string_numeral (i : nat) : decimal_numeral (N.of_nat i) (Str.to_string i).
Proof.
  split; [apply to_string_not_empty|].
  unfold Str.to_string, pretty, pretty_N. case_decide as Hn.
  - rewrite Hn. split; [done|]. by intros rest [= <-].
  - split; [apply digits_value_pretty_go|].
    destruct (pretty_go_head_positive (N.of_nat i) "") as (c & r & d & -> & Hd & Hpos);
      [lia|].
    intros rest [= -> _]. cbv in Hd. injection Hd as <-. lia.
Qed.

(** X7.  What [length] returns is the decimal numeral of the byte length
    of its argument (digits only, no leading zero, of that value), and for
    a length that fits an [int] [std::stoi] reads it back as that length;
    the state is the one the argument left. *)
Theorem length_reads_back ev expr args s s1 str :
  ev expr args s = (s1, Ok str) ->
  exists out,
    intrinsic_length ev expr args s = (s1, Ok out)
    /\ decimal_numeral (N.of_nat (String.length str)) out
    /\ ((Z.of_nat (String.length str) <= Str.INT_MAX)%Z ->
        Str.stoi out = Some (Z.of_nat (String.length str))).
Proof.
  intros Hev. exists (Str.to_string (String.length str)). split; [|split].
  - unfold intrinsic_length. by rewrite (bind_ok _ _ _ _ _ Hev).
  - apply to_string_numeral.
  - apply stoi_to_string.
Qed.

(** ** [run], [pipe] and [eval] *)

Lemma back_snoc s c : Str.back (s +:+ String.String c EmptyString) = Some c.
Proof.
  induction s as [|d s IH]; [done|].
  rewrite append_cons. cbn [Str.back]. rewrite IH.
  by destruct (s +:+ String.String c EmptyString) eqn:E; [destruct s; discriminate|].
Qed.

Lemma erase_last_snoc s c : Str.erase_last (s +:+ String.String c EmptyString) = s.
Proof.
  induction s as [|d s IH]; [done|].
  rewrite append_cons. cbn [Str.erase_last]. rewrite IH.
  by destruct (s +:+ String.String c EmptyString) eqn:E; [destruct s; discriminate|].
Qed.

Lemma trim_newline_snoc s c st :
  trim_newline (s +:+ String.String c EmptyString) st
  = (st, Ok (if Ascii.eqb c "010"%char then s else s +:+ String.String c EmptyString)).
Proof.
  unfold trim_newline. rewrite back_snoc.
  destruct (Ascii.eqb c "010"%char); [by rewrite erase_last_snoc | done].
Qed.

(** X8.  [run] on a command whose captured output is not empty: with exit
    status zero it returns the output without its last byte when that byte
    is a line feed, and the output as it is otherwise (one line feed at
    most is removed); with another status it throws. *)
Theorem run_trims_one_newline X ev expr pos args s s1 cmd out c rc :
  WPP_DISABLE_RUN X = false ->
  ev expr args s = (s1, Ok cmd) ->
  exec X (cwd s1) cmd = (out +:+ String.String c EmptyString, rc) ->
  intrinsic_run X ev expr pos args s
  = (s1, if (rc =? 0)%Z
         then Ok (if Ascii.eqb c "010"%char then out
                  else out +:+ String.String c EmptyString)
         else Throw {| exc_pos := pos; what := "subprocess exited with non-zero status." |}).
Proof.
  intros Hflag Hev Hexec. unfold intrinsic_run. rewrite Hflag.
  rewrite (bind_ok _ _ _ _ _ Hev). unfold bind at 1, get at 1. rewrite Hexec.
  rewrite (bind_ok _ _ _ _ _ (trim_newline_snoc _ _ _)).
  by destruct (rc =? 0)%Z.
Qed.

(** X9.  [pipe] treats a captured output that is not empty as [run] does. *)
Theorem pipe_trims_one_newline X ev cmd data pos args s s1 s2 cmd_str data_str out c rc :
  WPP_DISABLE_RUN X = false ->
  ev cmd args s = (s1, Ok cmd_str) ->
  ev data args s1 = (s2, Ok data_str) ->
  exec_pipe X (cwd s2) cmd_str data_str = (out +:+ String.String c EmptyString, rc) ->
  intrinsic_pipe X ev cmd data pos args s
  = (s2, if (rc =? 0)%Z
         then Ok (if Ascii.eqb c "010"%char then out
                  else out +:+ String.String c EmptyString)
         else Throw {| exc_pos := pos; what := "subprocess exited with non-zero status." |}).
Proof.
  intros Hflag Hcmd Hdata Hexec. unfold intrinsic_pipe. rewrite Hflag.
  rewrite (bind_ok _ _ _ _ _ Hcmd), (bind_ok _ _ _ _ _ Hdata).
  unfold bind at 1, get at 1. rewrite Hexec.
  rewrite (bind_ok _ _ _ _ _ (trim_newline_snoc _ _ _)).
  by destruct (rc =? 0)%Z.
Qed.

(** X10.  Once its argument is evaluated, every exception that leaves
    [eval], from the parser or from the evaluation of the parsed text,
    carries the position of the [eval] and a message that starts with
    "inside eval: ". *)
Theorem eval_wraps_exceptions X ev expr pos args s s1 code :
  ev expr args s = (s1, Ok code) ->
  forall s' e,
    intrinsic_eval X ev expr pos args s = (s', Throw e) ->
    exc_pos e = pos /\ exists msg, what e = "inside eval: " +:+ msg.
Proof.
  intros Hev s' e. unfold intrinsic_eval. rewrite (bind_ok _ _ _ _ _ Hev).
  unfold try_catch, bind at 1, get at 1.
  destruct (document X "<eval>" code (tree s1)) as [t' [e0|root]];
    unfold bind at 1, modify at 1.
  - intros [= _ <-]. split; [done | by eexists].
  - destruct (ev root args (set_tree t' s1)) as [s2 [v|e0|f|]]; try discriminate.
    intros [= _ <-]. split; [done | by eexists].
Qed.

(** ** Definitions, calls and variables *)

(** X14.  A definition becomes the current binding of its key; a [Drop]
    right after it gives back the table as it was when the key was already
    defined, and leaves the key with an empty stack when it was not. *)
Theorem drop_undoes_define key node_id (fs : gmap string (list node_t)) :
  (exists stack, define key node_id fs !! key = Some stack /\ last stack = Some node_id)
  /\ (forall stack, fs !! key = Some stack -> drop key (define key node_id fs) = Some fs)
  /\ (fs !! key = None -> drop key (define key node_id fs) = Some (<[key := []]> fs)).
Proof.
  split; [|split].
  - unfold define. destruct (fs !! key) as [stack|]; rewrite lookup_insert_eq.
    + exists (stack ++ [node_id]). by rewrite last_snoc.
    + by exists [node_id].
  - intros stack Hk. unfold define. rewrite Hk. unfold drop. rewrite lookup_insert_eq.
    destruct (stack ++ [node_id]) as [|x l] eqn:E; [by destruct stack|].
    rewrite <- E, removelast_last, insert_insert_eq. by rewrite insert_id.
  - intros Hk. unfold define. rewrite Hk. unfold drop. rewrite lookup_insert_eq.
    simpl. by rewrite insert_insert_eq.
Qed.

Lemma set_scopes_same s : set_scopes (scopes s) s = s.
Proof. by destruct s. Qed.

Lemma eval_string X n node_id value pos args s :
  tree s !! node_id = Some (wpp.String value pos) ->
  eval_ast X (S n) node_id args s = (s, Ok value).
Proof. intros H. by rewrite (eval_ast_visit _ _ _ _ _ _ H). Qed.

(** X15.  A variable read back: after [let x body] is evaluated at the top
    level, where [body] returned [v], a call of [x] returns [v] and leaves
    the state as it is; the body is not evaluated again. *)
Theorem var_reads_back X n node_id name body pos call cpos s s1 v :
  tree s !! node_id = Some (wpp.Var name body pos) ->
  eval_ast X n body None s = (s1, Ok v) ->
  body < length (tree s1) ->
  node_id < length (tree s1) ->
  node_id <> body ->
  tree s1 !! call = Some (wpp.FnInvoke name [] cpos) ->
  call <> node_id -> call <> body ->
  exists s2,
    eval_ast X (S n) node_id None s = (s2, Ok "")
    /\ forall k, eval_ast X (S (S k)) call None s2 = (s2, Ok v).
Proof.
  intros Hnode Hbody Hb Hn Hne Hcall Hc1 Hc2.
  pose proof (visit_var_ok (eval_ast X n) node_id name body pos None s s1 v
                Hbody Hb Hn Hne) as Hvar. cbv zeta in Hvar.
  rewrite (eval_ast_visit _ _ _ _ _ _ Hnode). cbn [visit].
  destruct (visit_var (eval_ast X n) node_id name body pos None s) as [s2 r] eqn:Hrun.
  simpl in Hvar. destruct Hvar as (-> & Hbody2 & Hnode2 & Hfs).
  exists s2. split; [done|]. intros k.
  assert (Hcall2 : tree s2 !! call = Some (wpp.FnInvoke name [] cpos)).
  { revert Hrun. unfold visit_var. rewrite (bind_ok _ _ _ _ _ Hbody).
    rewrite (bind_ok _ _ _ _ _ (replace_ok _ _ _ Hb)).
    erewrite bind_ok; [|apply replace_ok; simpl; by rewrite length_insert].
    unfold bind, get, enabled, warn, modify, ret.
    case_bool_decide; simpl; [destruct (negb (N.land _ _ =? 0)%N)|];
      intros [= <- ]; simpl; by rewrite !list_lookup_insert_ne. }
  rewrite (eval_ast_visit _ _ _ _ _ _ Hcall2). cbn [visit].
  unfold visit_fn_invoke. rewrite bind_ret. unfold bind at 1, get at 1.
  cbn [length]. rewrite Hfs.
  assert (Htop : forall (A : Type) (f : list node_t -> A) (d : A),
            match define (cat name 0) node_id (functions s1) !! cat name 0 with
            | Some stack => f stack
            | None => d
            end = f (default [] (define (cat name 0) node_id (functions s1) !! cat name 0))
            /\ @last node_t
                 (default (@nil node_t)
                    (define (cat name 0) node_id (functions s1) !! cat name 0))
               = Some node_id).
  { intros A f d. unfold define. destruct (functions s1 !! cat name 0) as [stack|];
      rewrite !lookup_insert_eq; cbn [from_option]; split; try done.
    apply last_snoc. }
  rewrite (proj1 (Htop _ _ _)). cbv beta.
  rewrite (proj2 (Htop unit (fun _ => tt) tt)).
  rewrite (bind_ok _ _ _ _ _ (node_at_ok _ _ _ Hnode2)). rewrite bind_ret.
  unfold with_scope. cbn [bind_args]. rewrite bind_ret.
  rewrite (eval_string X k body v pos) by done.
  cbn [scopes set_scopes]. rewrite take_app_length.
  f_equal. by destruct s2.
Qed.

Section MoreCalls.
Variable ev : node_t -> option nat -> M string.

(** X16.  A name bound in the caller's scope is never looked up in the
    function table: without arguments the call returns the bound value, at
    most adding a warning; with arguments it throws. *)
Theorem parameter_shadows_function name cargs cpos a s m value :
  scopes s !! a = Some m ->
  m !! name = Some value ->
  match cargs with
  | [] => exists c, visit_fn_invoke ev name cargs cpos (Some a) s
                    = (set_cerr c s, Ok value)
  | _ :: _ =>
      visit_fn_invoke ev name cargs cpos (Some a) s
      = (s, Throw {| exc_pos := cpos;
                     what := "calling argument '" +:+ name
                             +:+ "' as if it were a function." |})
  end.
Proof.
  intros Hm Hname. unfold visit_fn_invoke.
  assert (Hhit : (m0 <- scope_at a;; ret (m0 !! name)) s = (s, Ok (Some value))).
  { rewrite (bind_ok _ _ _ _ _ (scope_at_ok _ _ _ Hm)). unfold ret. by rewrite Hname. }
  rewrite (bind_ok _ _ _ _ _ Hhit). destruct cargs as [|x l]; [|done].
  cbn [length Nat.ltb Nat.leb]. unfold bind, enabled, get, warn, modify, ret.
  destruct (_ && _).
  - by eexists.
  - exists (cerr s). by rewrite set_cerr_same.
Qed.

(** X17.  A call of a name that is no parameter and whose key is not in the
    function table, or is there with an empty stack, throws
    "func not found" and changes nothing. *)
Theorem call_without_definition name cargs cpos args s :
  match args with
  | Some a => exists m, scopes s !! a = Some m /\ m !! name = None
  | None => True
  end ->
  functions s !! cat name (length cargs) = None
  \/ functions s !! cat name (length cargs) = Some [] ->
  visit_fn_invoke ev name cargs cpos args s
  = (s, Throw {| exc_pos := cpos; what := "func not found: " +:+ name +:+ "." |}).
Proof.
  intros Hargs Hkey. unfold visit_fn_invoke.
  assert (Hhit : match args with
                 | Some a => m <- scope_at a;; ret (m !! name)
                 | None => ret None
                 end s = (s, Ok None)).
  { destruct args as [a|]; [|done]. destruct Hargs as (m & Hm & Hname).
    rewrite (bind_ok _ _ _ _ _ (scope_at_ok _ _ _ Hm)). unfold ret. by rewrite Hname. }
  rewrite (bind_ok _ _ _ _ _ Hhit).
  unfold bind, get. by destruct Hkey as [-> | ->].
Qed.
End MoreCalls.

Lemma bind_all_other params : forall vs m q,
  q ∉ params -> bind_all m (zip params vs) !! q = m !! q.
Proof.
  induction params as [|p params IH]; intros [|v vs] m q Hq; try done.
  apply not_elem_of_cons in Hq as [Hne Hq]. cbn.
  change (foldl _ ?m0 ?l) with (bind_all m0 l).
  rewrite IH by done. by rewrite lookup_insert_ne.
Qed.

Lemma bind_all_lookup params : forall vs m j p v,
  NoDup params ->
  params !! j = Some p -> vs !! j = Some v ->
  bind_all m (zip params vs) !! p = Some v.
Proof.
  induction params as [|p0 params IH]; intros [|v0 vs] m j p v Hnd Hp Hv; try done.
  apply NoDup_cons in Hnd as [Hnotin Hnd]. cbn.
  change (foldl _ ?m0 ?l) with (bind_all m0 l).
  destruct j as [|j]; simpl in *.
  - injection Hp as ->. injection Hv as ->.
    rewrite bind_all_other by done. by rewrite lookup_insert_eq.
  - by eapply IH.
Qed.

Section Binding.
Variable X : Extern.
Variable n : nat.

Lemma bind_args_literals e callee_name callee_pos t cargs vs :
  literals t cargs vs ->
  forall s bound todo m,
    tree s = t ->
    scopes s !! e = Some m ->
    length cargs <= length todo ->
    NoDup todo ->
    (forall p, p ∈ todo -> m !! p = None) ->
    bind_args (eval_ast X (S n)) e callee_name callee_pos (bound ++ todo) cargs
      (length bound) None s
    = (set_scopes (<[e := bind_all m (zip todo vs)]> (scopes s)) s, Ok tt).
Proof.
  intros Hlit.
  induction Hlit as [|arg v cargs vs [pos Harg] Hrest IH];
    intros s bound todo m Ht Hm Hlen Hnd Hfresh.
  - cbn [bind_args]. unfold ret. destruct todo; cbn; rewrite list_insert_id by done;
      by destruct s.
  - destruct todo as [|p rest]; [simpl in Hlen; lia|].
    apply NoDup_cons in Hnd as [Hnotin Hnd]. subst t.
    cbn [bind_args].
    rewrite (bind_ok _ _ _ _ _ (eval_string X n arg v pos None s Harg)).
    rewrite (list_lookup_middle bound rest p (length bound) eq_refl).
    unfold bind at 1. unfold bind at 1. rewrite (scope_at_ok _ _ _ Hm).
    rewrite (Hfresh p) by (apply elem_of_cons; by left).
    unfold bind at 1. rewrite (eval_string X n arg v pos None s Harg).
    unfold bind at 1. rewrite (scope_at_ok _ _ _ Hm).
    unfold scope_write, modify.
    set (s1 := set_scopes (<[e := <[p := v]> m]> (scopes s)) s).
    assert (Hm1 : scopes s1 !! e = Some (<[p := v]> m)).
    { simpl. apply list_lookup_insert_eq. by eapply lookup_lt_Some. }
    specialize (IH s1 (bound ++ [p]) rest (<[p := v]> m) eq_refl Hm1).
    rewrite <- app_assoc, length_app in IH. cbn [app length] in IH.
    rewrite Nat.add_1_r in IH.
    rewrite IH; [| simpl in Hlen; lia | done |].
    + unfold s1. cbn. by rewrite list_insert_insert_eq.
    + intros q Hq. rewrite lookup_insert_ne; [apply Hfresh, elem_of_cons; by right|].
      intros ->. done.
Qed.

(** X18.  A call from the top level whose arguments are string literals, of
    a function with distinct parameters: the body is evaluated in a new
    scope that binds every parameter to the argument at its position and
    nothing else, and the scope is gone when the call is over. *)
Theorem call_binds_literal_arguments call name cargs cpos s stack top callee params body fpos vs :
  tree s !! call = Some (wpp.FnInvoke name cargs cpos) ->
  functions s !! cat name (length cargs) = Some stack ->
  last stack = Some top ->
  tree s !! top = Some (wpp.Fn callee params body fpos) ->
  literals (tree s) cargs vs ->
  length cargs <= length params ->
  NoDup params ->
  exists m : gmap string string,
    (forall j p v, params !! j = Some p -> vs !! j = Some v -> m !! p = Some v)
    /\ (forall q, q ∉ params -> m !! q = None)
    /\ eval_ast X (S (S n)) call None s
       = (let e := length (scopes s) in
          let '(s', r) :=
            eval_ast X (S n) body (Some e) (set_scopes (scopes s ++ [m]) s) in
          (set_scopes (take e (scopes s')) s', r)).
Proof.
  intros Hcall Hstack Htop Hfn Hlit Hlen Hnd.
  exists (bind_all ∅ (zip params vs)). split; [|split].
  - intros j p v. by apply bind_all_lookup.
  - intros q Hq. by rewrite bind_all_other.
  - rewrite (eval_ast_visit _ _ _ _ _ _ Hcall). cbn [visit].
    unfold visit_fn_invoke. rewrite bind_ret. unfold bind at 1, get at 1.
    rewrite Hstack, Htop. rewrite (bind_ok _ _ _ _ _ (node_at_ok _ _ _ Hfn)).
    rewrite bind_ret. unfold with_scope.
    set (s0 := set_scopes (scopes s ++ [∅]) s).
    assert (H0 : scopes s0 !! length (scopes s) = Some (∅ : gmap string string)).
    { simpl. by apply list_lookup_middle. }
    pose proof (bind_args_literals (length (scopes s)) callee fpos _ cargs vs Hlit
                  s0 [] params ∅ eq_refl H0 Hlen Hnd (fun p _ => lookup_empty p))
      as Hbind.
    simpl in Hbind. rewrite (bind_ok _ _ _ _ _ Hbind).
    assert (Hs : <[length (scopes s) := bind_all ∅ (zip params vs)]> (scopes s ++ [∅])
                 = scopes s ++ [bind_all ∅ (zip params vs)]).
    { rewrite insert_app_r_alt by lia. by rewrite Nat.sub_diag. }
    unfold s0. cbn [scopes set_scopes]. rewrite Hs. reflexivity.
Qed.
End Binding.

(** X19.  An intrinsic called with another number of arguments than its
    arity throws "<name> takes exactly N arguments." and evaluates none of
    them. *)
Theorem intrinsic_arity_checked X ev node_id type name exprs pos args s :
  length exprs <> intrinsic_arg_n type ->
  visit_intrinsic X ev node_id type name exprs pos args s
  = (s, Throw {| exc_pos := pos;
                 what := name +:+ " takes exactly "
                         +:+ Str.to_string (intrinsic_arg_n type) +:+ " arguments." |}).
Proof.
  intros Hlen. unfold visit_intrinsic.
  destruct (Nat.eqb_spec (intrinsic_arg_n type) (length exprs)) as [Heq|_]; [|done].
  by destruct Hlen.
Qed.

(** ** [Document] and [Pre] *)

(** X20.  A [Document] returns a string exactly when all its statements
    return, run in order, and the string is the concatenation of theirs. *)
Theorem document_concatenates X n node_id stmts args s s1 out :
  tree s !! node_id = Some (wpp.Document stmts) ->
  eval_ast X (S n) node_id args s = (s1, Ok out)
  <-> exists outs, stmts_run (eval_ast X n) args stmts s outs s1
                   /\ out = concat_all outs.
Proof.
  intros Hnode. rewrite (eval_ast_visit _ _ _ _ _ _ Hnode). cbn [visit]. split.
  - intros Hrun. by apply eval_stmts_ok in Hrun.
  - intros (outs & Hrun & ->). by rewrite (eval_stmts_run _ _ _ _ _ _ Hrun "").
Qed.

Lemma eval_stmts_app ev before rest args str s outs s1 :
  stmts_run ev args before s outs s1 ->
  eval_stmts ev (before ++ rest) args str s
  = eval_stmts ev rest args (str +:+ concat_all outs) s1.
Proof.
  intros Hrun. revert str.
  induction Hrun as [s|node tl s out s1 outs s2 Hev _ IH]; intros str; simpl.
  - by rewrite append_empty_r.
  - rewrite (bind_ok _ _ _ _ _ Hev), IH. by rewrite append_assoc.
Qed.

(** X21.  When a statement of a [Document] throws, the document throws the
    same exception from the state that statement left: the statements after
    it are not evaluated and no partial string is returned. *)
Theorem document_stops_at_failure X n node_id before bad after args s outs s1 s2 e :
  tree s !! node_id = Some (wpp.Document (before ++ bad :: after)) ->
  stmts_run (eval_ast X n) args before s outs s1 ->
  eval_ast X n bad args s1 = (s2, Throw e) ->
  eval_ast X (S n) node_id args s = (s2, Throw e).
Proof.
  intros Hnode Hrun Hbad. rewrite (eval_ast_visit _ _ _ _ _ _ Hnode). cbn [visit].
  rewrite (eval_stmts_app _ _ _ _ _ _ _ _ Hrun). cbn [eval_stmts].
  unfold bind. by rewrite Hbad.
Qed.

Lemma literals_rev t exprs vs : literals t exprs vs -> literals t (rev exprs) (rev vs).
Proof.
  unfold literals. induction 1 as [|e v exprs vs He _ IH]; simpl; [constructor|].
  apply Forall2_app; [exact IH | by constructor].
Qed.

Lemma eval_stmts_literals X n exprs vs args :
  forall str s,
    literals (tree s) exprs vs ->
    eval_stmts (eval_ast X (S n)) exprs args str s = (s, Ok (str +:+ concat_all vs)).
Proof.
  intros str s Hlit. revert str.
  induction Hlit as [|e v exprs vs [pos He] _ IH]; intros str; simpl.
  - by rewrite append_empty_r.
  - rewrite (bind_ok _ _ _ _ _ (eval_string X n e v pos args s He)), IH.
    by rewrite append_assoc.
Qed.

(** X22.  A [Pre] around one function definition, with literal prefix
    expressions: the definition is renamed in the arena to the prefix
    values, concatenated from the last to the first, followed by its
    identifier, and registered under that name and its arity. *)
Theorem pre_registers_prefixed_name X n p exprs ppos stmt identifier params body fpos vs args s :
  tree s !! p = Some (wpp.Pre exprs [stmt] ppos) ->
  tree s !! stmt = Some (wpp.Fn identifier params body fpos) ->
  literals (tree s) exprs vs ->
  let name := concat_all (rev vs) +:+ identifier in
  exists c,
    eval_ast X (S (S n)) p args s
    = (set_functions (define (cat name (length params)) stmt (functions s))
         (set_cerr c
            (set_tree (<[stmt := wpp.Fn name params body fpos]> (tree s)) s)),
       Ok "").
Proof.
  intros Hp Hstmt Hlit name.
  rewrite (eval_ast_visit _ _ _ _ _ _ Hp). cbn [visit pre_stmts].
  assert (Hexprs : pre_exprs p s = (s, Ok exprs)).
  { unfold pre_exprs. by rewrite (bind_ok _ _ _ _ _ (node_at_ok _ _ _ Hp)). }
  assert (Hrev : literals (tree s) (rev exprs) (rev vs)).
  { by apply literals_rev. }
  set (s1 := set_tree (<[stmt := wpp.Fn name params body fpos]> (tree s)) s).
  assert (Hnew : tree s1 !! stmt = Some (wpp.Fn name params body fpos)).
  { simpl. apply list_lookup_insert_eq. by eapply lookup_lt_Some. }
  destruct (eval_fn_state X n stmt name params body fpos args s1 Hnew) as [c Hev].
  exists c.
  assert (Hstep : pre_stmt (eval_ast X (S n)) p stmt args s
                  = (set_functions (define (cat name (length params)) stmt (functions s))
                       (set_cerr c s1), Ok "")).
  { unfold pre_stmt. rewrite (bind_ok _ _ _ _ _ (node_at_ok _ _ _ Hstmt)).
    rewrite (bind_ok _ _ _ _ _ Hexprs).
    rewrite (bind_ok _ _ _ _ _ (eval_stmts_literals X n _ _ args "" s Hrev)).
    change ("" +:+ concat_all (rev vs)) with (concat_all (rev vs)).
    rewrite (bind_ok _ _ _ _ _ (node_at_ok _ _ _ Hstmt)).
    rewrite (bind_ok _ _ _ _ _ (replace_ok _ _ _ (lookup_lt_Some _ _ _ Hstmt))).
    exact Hev. }
  by rewrite (bind_ok _ _ _ _ _ Hstep).
Qed.

(** ** The driver *)

(** X23.  [wpp::run] returns 0 exactly when the input file is read, its
    text parses to a document, and the evaluation of that document, started
    in the directory of the file with an empty function table, returns a
    string; standard output then grows by exactly that string, the
    diagnostic stream by the diagnostics of the evaluation, and the process
    ends in the directory of the input file.  On every other exit standard
    output is what it was.  A missing input file gives exit code 1 in the
    directory the process was in; the exit code is 0 or 1. *)
Theorem driver_output X fuel fname flags p :
  let r := Driver.run X fuel fname flags p in
  let dir := parent_path X (path_append X (Driver.p_cwd p) fname) in
  (r.2 = Driver.Return 0 <->
     exists file t root s str,
       read_file X (Driver.p_cwd p) fname = Some file
       /\ document X dir file [] = (t, inr root)
       /\ eval_ast X fuel root None
            {| base := dir; functions := ∅; tree := t; warnings := flags;
               cwd := dir; cerr := []; scopes := [] |} = (s, Ok str)
       /\ r.1 = {| Driver.p_cwd := dir;
                   Driver.p_cout := Driver.p_cout p +:+ str;
                   Driver.p_cerr := Driver.p_cerr p ++ (Driver.Diagnostic <$> cerr s) |})
  /\ (r.2 <> Driver.Return 0 -> Driver.p_cout r.1 = Driver.p_cout p)
  /\ (read_file X (Driver.p_cwd p) fname = None ->
        r.2 = Driver.Return 1 /\ Driver.p_cwd r.1 = Driver.p_cwd p)
  /\ (forall code, r.2 = Driver.Return code -> code = 0%Z \/ code = 1%Z).
Proof.
  intros r dir. subst r. unfold Driver.run. fold dir.
  destruct (read_file X (Driver.p_cwd p) fname) as [file|] eqn:Hfile.
  2:{ simpl. split; [|repeat split; try done; intros code [= <-]; by right].
      split; [done|]. by intros (? & ? & ? & ? & ? & ? & _). }
  destruct (document X dir file []) as [t [e|root]] eqn:Hdoc.
  { simpl. split; [|repeat split; try done; intros code [= <-]; by right].
    split; [done|]. intros (? & ? & ? & ? & ? & [= <-] & Hd & _).
    rewrite Hdoc in Hd. discriminate Hd. }
  destruct (eval_ast X fuel root None _) as [s [str|e|f|]] eqn:Hev; simpl.
  - split; [|split; [done|]; split; [done|]; intros code [= <-]; by left].
    split; [|done]. intros _. exists file, t, root, s, str.
    split; [done|]. split; [done|]. split; [done|].
    by rewrite (eval_ast_returns_same_cwd _ _ _ _ _ _ _ Hev).
  - split; [|repeat split; try done; intros code [= <-]; by right].
    split; [done|]. intros (? & ? & ? & ? & ? & [= <-] & Hd & Hev' & _).
    rewrite Hdoc in Hd. injection Hd as <- <-.
    rewrite Hev in Hev'. discriminate Hev'.
  - split; [|repeat split; done].
    split; [done|]. intros (? & ? & ? & ? & ? & [= <-] & Hd & Hev' & _).
    rewrite Hdoc in Hd. injection Hd as <- <-.
    rewrite Hev in Hev'. discriminate Hev'.
  - split; [|repeat split; done].
    split; [done|]. intros (? & ? & ? & ? & ? & [= <-] & Hd & Hev' & _).
    rewrite Hdoc in Hd. injection Hd as <- <-.
    rewrite Hev in Hev'. discriminate Hev'.
Qed.

(** ** The further properties on the example programs *)

Section FurtherExamples.

Import Demo Programs Scripts.

(** At the edge of [int]: an end of [INT_MAX] makes [end - begin + 1]
  leave the range of [int], which C++ gives no meaning to; an end one
  larger does not parse as an [int]. *)
Example slice_end_int_max :
  slice "abc" "0" "2147483647" p0 (start []) = (start [], Fault IntOverflow)
  /\ slice "abc" "0" "2147483648" p0 (start [])
     = (start [], Throw {| exc_pos := p0; what := "slice range must be numerical." |}).
Proof. split; vm_compute; reflexivity. Qed.

(** [length("hello")] is [5]. *)
Lemma length_reads_back_witness :
  exists out,
    intrinsic_length (eval_ast host 1) 0 None (start length_hello)
    = (start length_hello, Ok out)
    /\ decimal_numeral 5 out
    /\ ((5 <= Str.INT_MAX)%Z -> Str.stoi out = Some 5%Z).
Proof.
  apply (length_reads_back (eval_ast host 1) 0 None (start length_hello)
           (start length_hello) "hello" eq_refl).
Defined.

(** [run("echo hi")] returns [hi]. *)
Lemma run_trims_one_newline_witness :
  intrinsic_run host (eval_ast host 1) 3 p0 None (start shell_calls)
  = (start shell_calls, Ok "hi").
Proof.
  exact (run_trims_one_newline host (eval_ast host 1) 3 p0 None (start shell_calls)
           (start shell_calls) "echo hi" "hi" "010"%char 0%Z eq_refl eq_refl eq_refl).
Defined.

(** [pipe("echo hi", "true")] returns [hi]. *)
Lemma pipe_trims_one_newline_witness :
  intrinsic_pipe host (eval_ast host 1) 3 0 p0 None (start shell_calls)
  = (start shell_calls, Ok "hi").
Proof.
  exact (pipe_trims_one_newline host (eval_ast host 1) 3 0 p0 None (start shell_calls)
           (start shell_calls) (start shell_calls) "echo hi" "true" "hi" "010"%char 0%Z
           eq_refl eq_refl eq_refl eq_refl).
Defined.

(** [eval("!boom")] throws [inside eval: boom] at the position of the
    [eval]. *)
Lemma eval_wraps_exceptions_witness :
  exists s' e,
    intrinsic_eval host (eval_ast host 3) 0 p0 None (start eval_boom) = (s', Throw e)
    /\ exc_pos e = p0 /\ exists msg, what e = "inside eval: " +:+ msg.
Proof.
  eexists _, {| exc_pos := p0; what := "inside eval: boom" |}.
  assert (Hrun : intrinsic_eval host (eval_ast host 3) 0 p0 None (start eval_boom)
                 = ((intrinsic_eval host (eval_ast host 3) 0 p0 None (start eval_boom)).1,
                    Throw {| exc_pos := p0; what := "inside eval: boom" |}))
    by (vm_compute; reflexivity).
  split; [exact Hrun|].
  exact (eval_wraps_exceptions host (eval_ast host 3) 0 p0 None (start eval_boom)
           (start eval_boom) "!boom" eq_refl _ _ Hrun).
Defined.

(** A second definition of [f0], dropped: the table is as before. *)
Lemma drop_undoes_define_witness :
  drop "f0" (define "f0" 7 {["f0" := [1]]}) = Some {["f0" := [1]]}.
Proof.
  apply (proj1 (proj2 (drop_undoes_define "f0" 7 {["f0" := [1]]})) [1]).
  vm_compute. reflexivity.
Defined.

(** [let x "v"  x] *)
Lemma var_reads_back_witness :
  exists s2,
    eval_ast host 2 1 None (start let_then_read) = (s2, Ok "")
    /\ forall k, eval_ast host (S (S k)) 2 None s2 = (s2, Ok "v").
Proof.
  apply (var_reads_back host 1 1 "x" 0 p0 2 p0 (start let_then_read)
           (start let_then_read) "v");
    first [reflexivity | simpl; lia | discriminate].
Defined.

(** In a scope that binds [x], the call [x] returns the bound value. *)
Lemma parameter_shadows_function_witness :
  exists c, visit_fn_invoke (eval_ast host 0) "x" [] p0 (Some 0) in_scope
            = (set_cerr c in_scope, Ok "v").
Proof.
  apply (parameter_shadows_function (eval_ast host 0) "x" [] p0 0 in_scope
           {["x" := "v"]} "v"); vm_compute; reflexivity.
Defined.

(** A call of [f] in an empty table. *)
Lemma call_without_definition_witness :
  visit_fn_invoke (eval_ast host 0) "f" [] p0 None (start [])
  = (start [], Throw {| exc_pos := p0; what := "func not found: f." |}).
Proof.
  apply (call_without_definition (eval_ast host 0) "f" [] p0 None (start []) I).
  left. vm_compute. reflexivity.
Defined.

(** [greet("world")] binds [x] to [world]. *)
Lemma call_binds_literal_arguments_witness :
  exists m : gmap string string, m !! "x" = Some "world" /\ m !! "y" = None.
Proof.
  destruct (call_binds_literal_arguments host 1 5 "greet" [4] p0 greet_defined
              [3] 3 "greet" ["x"] 2 p0 ["world"]) as (m & Hbound & Hfree & _).
  - reflexivity.
  - vm_compute. reflexivity.
  - reflexivity.
  - reflexivity.
  - constructor; [by exists p0 | constructor].
  - simpl. lia.
  - apply NoDup_singleton.
  - exists m. split.
    + by apply (Hbound 0 "x" "world").
    + apply Hfree. apply not_elem_of_cons. split; [discriminate | apply not_elem_of_nil].
Defined.

(** [find] with one argument. *)
Lemma intrinsic_arity_checked_witness :
  visit_intrinsic host (eval_ast host 0) 1 TOKEN_FIND "find" [0] p0 None (start [])
  = (start [], Throw {| exc_pos := p0; what := "find takes exactly 2 arguments." |}).
Proof.
  apply (intrinsic_arity_checked host (eval_ast host 0) 1 TOKEN_FIND "find" [0] p0 None
           (start [])).
  simpl. lia.
Defined.

(** The document of [Programs.greet] returns [hello world]. *)
Lemma document_concatenates_witness :
  exists outs,
    stmts_run (eval_ast host 4) None [3; 5] (start greet) outs (run 5 greet 6).1
    /\ "hello world" = concat_all outs.
Proof.
  apply (proj1 (document_concatenates host 4 6 [3; 5] None (start greet)
                  (run 5 greet 6).1 "hello world" eq_refl)).
  vm_compute. reflexivity.
Defined.

(** [log("x")  error("boom")  log("y")] logs [x] and stops. *)
Lemma document_stops_at_failure_witness :
  eval_ast host 3 6 None (start log_error_log)
  = (set_cerr [Logged "x"] (start log_error_log),
     Throw {| exc_pos := p0; what := "boom" |}).
Proof.
  apply (document_stops_at_failure host 2 6 [1] 3 [5] None (start log_error_log) [""]
           (set_cerr [Logged "x"] (start log_error_log))).
  - reflexivity.
  - eapply stmts_run_cons; [reflexivity | constructor].
  - reflexivity.
Defined.

(** [prefix "ns_" { let g() "hi" }] registers [ns_g]. *)
Lemma pre_registers_prefixed_name_witness :
  functions (run 2 prefix_ns 3).1 !! "ns_g0" = Some [2].
Proof.
  destruct (pre_registers_prefixed_name host 0 3 [0] p0 2 "g" [] 1 p0 ["ns_"] None
              (start prefix_ns)) as [c Hrun].
  - reflexivity.
  - reflexivity.
  - constructor; [by exists p0 | constructor].
  - unfold run. rewrite Hrun. vm_compute. reflexivity.
Defined.

(** The driver on [inc/good.wpp], started in [/home]: it prints [hello]
  and ends in [/home/inc]. *)
Lemma driver_output_witness :
  Driver.p_cout (Driver.run host 4 "inc/good.wpp" WARN_ALL shell_process).1 = "hello"
  /\ Driver.p_cwd (Driver.run host 4 "inc/good.wpp" WARN_ALL shell_process).1 = "/home/inc".
Proof.
  destruct (proj1 (proj1 (driver_output host 4 "inc/good.wpp" WARN_ALL shell_process))
              ltac:(vm_compute; reflexivity))
    as (file & t & root & s & str & Hfile & Hdoc & Hev & ->).
  injection Hfile as <-. injection Hdoc as <- <-.
  vm_compute in Hev. injection Hev as <- <-.
  split; vm_compute; reflexivity.
Defined.

End FurtherExamples.
